(** * SLIP link layer (slip.py): shallow embedding and verified properties

    The Python module defines two classes.  [Enlace] frames datagrams
    for one serial line (RFC 1055: END = 0xC0, ESC = 0xDB) and
    reassembles incoming raw bytes; [CamadaEnlace] owns one [Enlace]
    per next-hop address and merges their upward deliveries.

    Python [bytes] values are lists of [Byte.byte].  Object attributes
    that the code may find missing ([hasattr], [AttributeError]) are
    options.  Method bodies are functions on an explicit world: the
    object, the state of the code behind the callback, and the trace of
    observable events. *)

From Stdlib Require Import Strings.Byte.
From stdpp Require Import base option list strings gmap.

Abbreviation bytes := (list byte).

(** ** The [bytes] methods used by slip.py *)

(** [s.startswith(prefix)] *)
Fixpoint bytes_startswith (s prefix : bytes) {struct prefix} : bool :=
  match prefix, s with
  | [], _ => true
  | p :: prefix', b :: s' => Byte.eqb b p && bytes_startswith s' prefix'
  | _ :: _, [] => false
  end.

(** [s.find(sub)]: index of the first occurrence; [None] is Python's -1. *)
Fixpoint bytes_find (s sub : bytes) : option nat :=
  if bytes_startswith s sub then Some 0
  else match s with
       | [] => None
       | _ :: s' => S <$> bytes_find s' sub
       end.

(** [sub in s] *)
Definition bytes_contains (sub s : bytes) : bool :=
  match bytes_find s sub with Some _ => true | None => false end.

(** [s.partition(sep)] for a non-empty separator: the part before the
    first occurrence, the separator, the part after it; when [sep] does
    not occur, [(s, b"", b"")]. *)
Definition bytes_partition (s sep : bytes) : bytes * bytes * bytes :=
  match bytes_find s sep with
  | Some i => (take i s, sep, drop (i + length sep) s)
  | None => (s, [], [])
  end.

(** [s.replace(old, new)]: every non-overlapping occurrence of [old],
    scanning left to right.  [skip] counts the bytes of an occurrence
    already replaced that the scan still has to step over. *)
Fixpoint bytes_replace_from (old new : bytes) (skip : nat) (s : bytes) : bytes :=
  match s with
  | [] => []
  | b :: s' =>
      match skip with
      | S k => bytes_replace_from old new k s'
      | O =>
          if bytes_startswith s old
          then new ++ bytes_replace_from old new (length old - 1) s'
          else b :: bytes_replace_from old new 0 s'
      end
  end.

Definition bytes_replace (s old new : bytes) : bytes :=
  match old with
  | [] => new ++ flat_map (fun b => b :: new) s
  | _ :: _ => bytes_replace_from old new 0 s
  end.

(** ** Exceptions and events *)

(** The exceptions that matter to the code: the two it can raise itself
    through attribute and dictionary access, and whatever a callback
    raises, split by what [except Exception] tests. *)
Inductive exn :=
| AttributeError (name : string)
| KeyError (key : string)
| OtherException (cls : string)
| BaseExceptionOnly (cls : string).

(** [isinstance(e, Exception)]: false for KeyboardInterrupt, SystemExit,
    GeneratorExit and other direct subclasses of BaseException. *)
Definition isinstance_Exception (e : exn) : bool :=
  match e with
  | BaseExceptionOnly _ => false
  | _ => true
  end.

Inductive outcome :=
| Returns
| Raises (e : exn).

(** Observable events, in the order they happen. A serial line is
    identified by a number (the identity of the Python object). *)
Inductive event :=
| LinhaEnviar (linha : nat) (quadro : bytes)  (* linha_serial.enviar(quadro) *)
| CallbackCall (datagrama : bytes)            (* self.callback(quadro) *)
| PrintExc (e : exn).                         (* traceback.print_exc() *)

(** SLIP constants, as both methods of [Enlace] define them. *)
Definition END : bytes := [xc0].
Definition ESC : bytes := [xdb].
Definition ESC_END : bytes := [xdb; xdc].
Definition ESC_ESC : bytes := [xdb; xdd].

(** ** class Enlace *)

Module Enlace.
Section WithEnv.
Context {E : Type}.

(** [E] is the state of the code behind the receive callback. A
    callback is a deterministic Python callable: it sees the datagram
    and its own state, returns or raises, and leaves a new state. It
    does not reach back into the [Enlace] that calls it. It is truthy,
    as functions and bound methods are, so that [if self.callback]
    only tells [None] from a callback. *)
Definition callable : Type := bytes → E → outcome * E.

(** The attributes of an instance. [callback] and [buffer] are not
    assigned by [__init__]: [None] is a missing attribute.
    [callback = Some None] is the attribute holding Python's [None]. *)
Record t := mk {
  linha_serial : nat;
  callback : option (option callable);
  buffer : option bytes
}.

Record world := World {
  self : t;
  env : E;
  trace : list event
}.

(** How a method ends: it returns, or an exception leaves it. *)
Inductive completion :=
| Normal (w : world)
| Propagates (e : exn) (w : world).

Definition world_of (c : completion) : world :=
  match c with Normal w | Propagates _ w => w end.

Definition set_buffer (b : bytes) (w : world) : world :=
  World (mk (linha_serial (self w)) (callback (self w)) (Some b)) (env w) (trace w).

Definition log (ev : event) (w : world) : world :=
  World (self w) (env w) (trace w ++ [ev]).

(** [self.buffer] once line 87 has made sure the attribute exists. *)
Definition get_buffer (w : world) : bytes := default [] (buffer (self w)).

(** [__init__]: keeps the line. (It also hands [__raw_recv] to the
    line, which is what makes the line call [__raw_recv] later.) *)
Definition __init__ (linha : nat) : t := mk linha None None.

Definition registrar_recebedor (cb : option callable) (s : t) : t :=
  mk (linha_serial s) (Some cb) (buffer s).

(** Lines 62 and 65: escape ESC first, then END, and delimit. *)
Definition escapar (datagrama : bytes) : bytes :=
  bytes_replace (bytes_replace datagrama ESC ESC_ESC) END ESC_END.

Definition quadro_de (datagrama : bytes) : bytes :=
  END ++ escapar datagrama ++ END.

(** Line 68. The line's own [enviar] is outside this module; the
    call is recorded and taken to return. *)
Definition enviar (datagrama : bytes) (w : world) : world :=
  log (LinhaEnviar (linha_serial (self w)) (quadro_de datagrama)) w.

(** Line 101: ESC_END first, then ESC_ESC. *)
Definition desescapar (quadro : bytes) : bytes :=
  bytes_replace (bytes_replace quadro ESC_END END) ESC_ESC ESC.

(** The body of the [try]: [if self.callback: self.callback(quadro)].
    Reading a missing attribute raises AttributeError. *)
Definition try_body (quadro : bytes) (w : world) : outcome * world :=
  match callback (self w) with
  | None => (Raises (AttributeError "callback"), w)
  | Some None => (Returns, w)
  | Some (Some f) =>
      let '(o, e') := f quadro (env w) in
      (o, World (self w) e' (trace w ++ [CallbackCall quadro]))
  end.

(** Lines 104-109: [except Exception] prints the traceback and goes
    on; any other exception leaves the method. *)
Definition dispatch (quadro : bytes) (w : world) : completion :=
  match try_body quadro w with
  | (Returns, w') => Normal w'
  | (Raises e, w') =>
      if isinstance_Exception e then Normal (log (PrintExc e) w')
      else Propagates e w'
  end.

(** The [while] loop of lines 92-109. Each iteration removes at least
    the delimiter from the buffer, so [fuel] larger than the buffer's
    length is never exhausted (see [loop_fuel] below). *)
Fixpoint loop (fuel : nat) (w : world) : completion :=
  match fuel with
  | O => Normal w
  | S fuel' =>
      if bytes_contains END (get_buffer w) then
        let '(quadro, _, resto) := bytes_partition (get_buffer w) END in
        let w1 := set_buffer resto w in
        match quadro with
        | [] => loop fuel' w1
        | _ :: _ =>
            match dispatch (desescapar quadro) w1 with
            | Normal w2 => loop fuel' w2
            | Propagates e w2 => Propagates e w2
            end
        end
      else Normal w
  end.

Definition __raw_recv (dados : bytes) (w : world) : completion :=
  let antes := match buffer (self w) with Some b => b | None => [] end in
  let w0 := set_buffer (antes ++ dados) w in
  loop (S (length (get_buffer w0))) w0.

(** The line calls [__raw_recv] once per chunk, in order. An exception
    that leaves one call reaches the line and ends the delivery. *)
Fixpoint entregar (pedacos : list bytes) (w : world) : completion :=
  match pedacos with
  | [] => Normal w
  | p :: ps =>
      match __raw_recv p w with
      | Normal w' => entregar ps w'
      | Propagates e w' => Propagates e w'
      end
  end.

(** The datagrams handed to the callback, read off a trace. *)
Definition chamadas (tr : list event) : list bytes :=
  omap (fun ev => match ev with CallbackCall d => Some d | _ => None end) tr.

(** The tracebacks printed, read off a trace. *)
Definition relatados (tr : list event) : list exn :=
  omap (fun ev => match ev with PrintExc e => Some e | _ => None end) tr.

(** The frames sent, with their lines, read off a trace. *)
Definition enviados (tr : list event) : list (nat * bytes) :=
  omap (fun ev => match ev with LinhaEnviar l q => Some (l, q) | _ => None end) tr.

End WithEnv.
Arguments t : clear implicits.
Arguments world : clear implicits.
Arguments completion : clear implicits.
Arguments callable : clear implicits.
End Enlace.

(** ** class CamadaEnlace *)

Module CamadaEnlace.
Section WithUpper.
(* [U] is the state of the layer above, behind the callback given to
   [registrar_recebedor]. *)
Context {U : Type}.

(** What [_callback] reads and changes: the instance's [callback]
    attribute ([None] is Python's [None], the value [__init__]
    assigns), the layer above, and the datagrams handed to it so far
    (kept for the statements; the code has no such list). *)
Record acima := Acima {
  callback : option (Enlace.callable U);
  camada_acima : U;
  entregues : list bytes
}.

(** Lines 37-39. This bound method is the receive callback of every
    [Enlace] of the instance. *)
Definition _callback : Enlace.callable acima := fun datagrama a =>
  match callback a with
  | Some f =>
      let '(o, u') := f datagrama (camada_acima a) in
      (o, Acima (callback a) u' (entregues a ++ [datagrama]))
  | None => (Returns, a)
  end.

(** An instance: the dictionary [enlaces], the part [_callback] works
    on, and the trace of events of all its links. *)
Record t := mk {
  enlaces : gmap string (Enlace.t acima);
  cima : acima;
  trace : list event
}.

Inductive completion :=
| Normal (c : t)
| Propagates (e : exn) (c : t).

(** Lines 14-20: one [Enlace] per entry of [linhas_seriais], each with
    [self._callback] registered; [self.callback = None]. *)
Definition __init__ (linhas_seriais : gmap string nat) (u : U) : t :=
  mk ((λ linha, Enlace.registrar_recebedor (Some _callback) (Enlace.__init__ linha))
        <$> linhas_seriais)
     (Acima None u [])
     [].

(** Line 26. *)
Definition registrar_recebedor (cb : option (Enlace.callable U)) (c : t) : t :=
  mk (enlaces c) (Acima cb (camada_acima (cima c)) (entregues (cima c))) (trace c).

(** Line 35: [self.enlaces[next_hop]] raises KeyError for a missing
    key; otherwise the link found sends. *)
Definition enviar (datagrama : bytes) (next_hop : string) (c : t) : completion :=
  match enlaces c !! next_hop with
  | None => Propagates (KeyError next_hop) c
  | Some enlace =>
      let w := Enlace.enviar datagrama (Enlace.World enlace (cima c) (trace c)) in
      Normal (mk (<[next_hop := Enlace.self w]> (enlaces c)) (Enlace.env w) (Enlace.trace w))
  end.

(** The serial line of the link for [ip] calls the receiver that link
    registered, [__raw_recv], with [dados]. Nothing happens for an
    address without a link. *)
Definition linha_recebe (ip : string) (dados : bytes) (c : t) : completion :=
  match enlaces c !! ip with
  | None => Normal c
  | Some enlace =>
      let put w :=
        mk (<[ip := Enlace.self w]> (enlaces c)) (Enlace.env w) (Enlace.trace w) in
      match Enlace.__raw_recv dados (Enlace.World enlace (cima c) (trace c)) with
      | Enlace.Normal w => Normal (put w)
      | Enlace.Propagates e w => Propagates e (put w)
      end
  end.

End WithUpper.
Arguments acima : clear implicits.
Arguments t : clear implicits.
Arguments completion : clear implicits.
End CamadaEnlace.

(** ** Definitions used in the statements *)

#[global] Instance byte_eq_decision : EqDecision byte := byte_eq_dec.

(** What the two replacements of [Enlace.escapar] do to one byte. *)
Definition esc_byte (b : byte) : bytes :=
  if Byte.eqb b xdb then ESC_ESC
  else if Byte.eqb b xc0 then ESC_END
  else [b].

Section Callbacks.
Context {E : Type}.

(** Whatever [f] raises is an instance of [Exception]. *)
Definition so_Exception (f : Enlace.callable E) : Prop :=
  ∀ d e x, (f d e).1 = Raises x → isinstance_Exception x = true.

(** The events of handing the datagrams [ds] to [f] one after the
    other from state [e], each failure reported: a call, followed by a
    printed traceback when the call raised. *)
Fixpoint eventos (f : Enlace.callable E) (ds : list bytes) (e : E) : list event :=
  match ds with
  | [] => []
  | d :: ds' =>
      let '(o, e') := f d e in
      CallbackCall d ::
        match o with
        | Returns => eventos f ds' e'
        | Raises x => PrintExc x :: eventos f ds' e'
        end
  end.

(** The state in which those calls leave the code behind [f]. *)
Fixpoint estado_final (f : Enlace.callable E) (ds : list bytes) (e : E) : E :=
  match ds with
  | [] => e
  | d :: ds' => estado_final f ds' (f d e).2
  end.
End Callbacks.

(** ** Callbacks used in the examples *)

(** A callback that keeps what it receives, in order. *)
Definition guarda : Enlace.callable (list bytes) :=
  fun d recebidos => (Returns, recebidos ++ [d]).

(** A callback that keeps what it receives and then raises ValueError. *)
Definition falha : Enlace.callable (list bytes) :=
  fun d recebidos => (Raises (OtherException "ValueError"), recebidos ++ [d]).

(** A callback that keeps what it receives and then calls [sys.exit()]. *)
Definition sai : Enlace.callable (list bytes) :=
  fun d recebidos => (Raises (BaseExceptionOnly "SystemExit"), recebidos ++ [d]).

(** A callback that keeps what it receives and raises ValueError on the
    first datagram it is given, and only on that one. *)
Definition falha_na_primeira : Enlace.callable (list bytes) :=
  fun d recebidos =>
    (match recebidos with
     | [] => Raises (OtherException "ValueError")
     | _ :: _ => Returns
     end, recebidos ++ [d]).

(** A link layer over two serial lines, numbered 1 and 2, with nothing
    above it yet. *)
Definition camada_exemplo : CamadaEnlace.t (list bytes) :=
  CamadaEnlace.__init__ (<["10.0.0.1" := 1]> (<["10.0.0.2" := 2]> ∅)) [].

(** A link on line 0 with [cb] registered and nothing received yet. *)
Definition enlace_novo {E} (cb : Enlace.callable E) (e : E) : Enlace.world E :=
  Enlace.World (Enlace.registrar_recebedor (Some cb) (Enlace.__init__ 0)) e [].

(** [type(e).__name__]: the name of the class of an exception. *)
Definition nome_da_classe (e : exn) : string :=
  match e with
  | AttributeError _ => "AttributeError"
  | KeyError _ => "KeyError"
  | OtherException cls => cls
  | BaseExceptionOnly cls => cls
  end.

(** The instance a call on a [CamadaEnlace] leaves behind, however the
    call ended. *)
Definition camada_de {U} (r : CamadaEnlace.completion U) : CamadaEnlace.t U :=
  match r with
  | CamadaEnlace.Normal c | CamadaEnlace.Propagates _ c => c
  end.

(** One operation on a [CamadaEnlace]: a registration, a send, or a
    serial line handing bytes to its link. *)
Inductive passo {U} : CamadaEnlace.t U → CamadaEnlace.t U → Prop :=
| passo_registrar c cb :
    passo c (CamadaEnlace.registrar_recebedor cb c)
| passo_enviar c datagrama next_hop :
    passo c (camada_de (CamadaEnlace.enviar datagrama next_hop c))
| passo_recebe c ip dados :
    passo c (camada_de (CamadaEnlace.linha_recebe ip dados c)).

(** * Properties *)

(** ** Bytes *)

Lemma byte_eqb_eq (b c : byte) : Byte.eqb b c = true ↔ b = c.
Proof.
  split; [apply byte_dec_bl | apply byte_dec_lb].
Qed.

Lemma byte_eqb_neq (b c : byte) : Byte.eqb b c = false ↔ b ≠ c.
Proof.
  rewrite <- byte_eqb_eq. destruct (Byte.eqb b c); split; congruence.
Qed.

(** Push [length] through the list constructors in every hypothesis. *)
Ltac lengths :=
  repeat match goal with
    | H : context [length (_ ++ _)] |- _ => rewrite length_app in H
    | H : context [length (_ :: _)] |- _ => rewrite length_cons in H
    | H : context [length []] |- _ => rewrite length_nil in H
    | |- context [length (_ ++ _)] => rewrite length_app
    | |- context [length (_ :: _)] => rewrite length_cons
    | |- context [length []] => rewrite length_nil
    end.

Ltac byte_cases b c :=
  let H := fresh "Hb" in
  destruct (Byte.eqb b c) eqn:H;
  [apply byte_eqb_eq in H; try subst b | pose proof (proj1 (byte_eqb_neq _ _) H)].

Lemma find_byte_cons (b : byte) (s : bytes) (c : byte) :
  bytes_find (b :: s) [c] =
  if Byte.eqb b c then Some 0 else S <$> bytes_find s [c].
Proof.
  simpl. rewrite andb_true_r. reflexivity.
Qed.

Lemma find_byte_absent (s : bytes) (c : byte) :
  c ∉ s → bytes_find s [c] = None.
Proof.
  induction s as [|b s IH]; intros Hc; [reflexivity|].
  rewrite find_byte_cons. apply not_elem_of_cons in Hc as [Hne Hc].
  byte_cases b c; [congruence|]. rewrite IH by assumption. reflexivity.
Qed.

Lemma find_byte_first (q r : bytes) (c : byte) :
  c ∉ q → bytes_find (q ++ c :: r) [c] = Some (length q).
Proof.
  induction q as [|b q IH]; intros Hc; simpl app.
  - rewrite find_byte_cons.
    rewrite (proj2 (byte_eqb_eq c c) eq_refl). reflexivity.
  - apply not_elem_of_cons in Hc as [Hne Hc].
    rewrite find_byte_cons.
    rewrite (proj2 (byte_eqb_neq b c)) by congruence.
    rewrite IH by assumption. reflexivity.
Qed.

Lemma contains_byte_absent (s : bytes) (c : byte) :
  c ∉ s → bytes_contains [c] s = false.
Proof.
  intros Hc. unfold bytes_contains. rewrite find_byte_absent; done.
Qed.

Lemma contains_byte_first (q r : bytes) (c : byte) :
  c ∉ q → bytes_contains [c] (q ++ c :: r) = true.
Proof.
  intros Hc. unfold bytes_contains. rewrite find_byte_first; done.
Qed.

Lemma partition_byte_first (q r : bytes) (c : byte) :
  c ∉ q → bytes_partition (q ++ c :: r) [c] = (q, [c], r).
Proof.
  intros Hc. unfold bytes_partition. rewrite find_byte_first by assumption.
  rewrite take_app_length. f_equal.
  change (q ++ c :: r) with (q ++ [c] ++ r).
  rewrite app_assoc, <- (length_app q [c]).
  apply drop_app_length.
Qed.

(** Every byte string either has no [c] or splits at its first [c]. *)
Lemma split_first (s : bytes) (c : byte) :
  c ∉ s ∨ ∃ q r, s = q ++ c :: r ∧ c ∉ q.
Proof.
  destruct (decide (c ∈ s)) as [Hin|Hout]; [right|left; assumption].
  apply list_elem_of_split_l in Hin as (q & r & -> & Hq). eauto.
Qed.

Lemma replace_byte_cons (b : byte) (s : bytes) (c : byte) (new : bytes) :
  bytes_replace (b :: s) [c] new =
  if Byte.eqb b c then new ++ bytes_replace s [c] new
  else b :: bytes_replace s [c] new.
Proof.
  unfold bytes_replace. simpl. rewrite andb_true_r. reflexivity.
Qed.

Lemma replace_pair_cons2 (b1 b2 : byte) (s : bytes) (o1 o2 : byte) (new : bytes) :
  bytes_replace (b1 :: b2 :: s) [o1; o2] new =
  if Byte.eqb b1 o1 && Byte.eqb b2 o2 then new ++ bytes_replace s [o1; o2] new
  else b1 :: bytes_replace (b2 :: s) [o1; o2] new.
Proof.
  unfold bytes_replace. simpl. rewrite andb_true_r. reflexivity.
Qed.

Lemma replace_pair_skip (b : byte) (s : bytes) (o1 o2 : byte) (new : bytes) :
  b ≠ o1 →
  bytes_replace (b :: s) [o1; o2] new = b :: bytes_replace s [o1; o2] new.
Proof.
  intros Hne. apply byte_eqb_neq in Hne.
  destruct s as [|b2 s]; [unfold bytes_replace; simpl; rewrite Hne; reflexivity|].
  rewrite replace_pair_cons2, Hne. reflexivity.
Qed.

Lemma replace_pair_hit (s : bytes) (o1 o2 : byte) (new : bytes) :
  bytes_replace (o1 :: o2 :: s) [o1; o2] new = new ++ bytes_replace s [o1; o2] new.
Proof.
  rewrite replace_pair_cons2.
  rewrite !(proj2 (byte_eqb_eq _ _) eq_refl). reflexivity.
Qed.

Lemma replace_pair_miss (b2 : byte) (s : bytes) (o1 o2 : byte) (new : bytes) :
  b2 ≠ o2 →
  bytes_replace (o1 :: b2 :: s) [o1; o2] new = o1 :: bytes_replace (b2 :: s) [o1; o2] new.
Proof.
  intros Hne. rewrite replace_pair_cons2.
  rewrite (proj2 (byte_eqb_neq b2 o2) Hne), andb_false_r. reflexivity.
Qed.

(** ** Escaping *)

Lemma escapar_nil : Enlace.escapar [] = [].
Proof. reflexivity. Qed.

Lemma escapar_cons (b : byte) (d : bytes) :
  Enlace.escapar (b :: d) = esc_byte b ++ Enlace.escapar d.
Proof.
  unfold Enlace.escapar, esc_byte, ESC, END, ESC_ESC, ESC_END.
  rewrite replace_byte_cons.
  byte_cases b xdb.
  - cbn [app]. rewrite !replace_byte_cons. reflexivity.
  - rewrite replace_byte_cons. byte_cases b xc0; reflexivity.
Qed.

Lemma escapar_no_END (d : bytes) : xc0 ∉ Enlace.escapar d.
Proof.
  induction d as [|b d IH]; [rewrite escapar_nil; apply not_elem_of_nil|].
  rewrite escapar_cons. unfold esc_byte, ESC_ESC, ESC_END.
  byte_cases b xdb; [|byte_cases b xc0]; cbn [app];
    repeat (apply not_elem_of_cons; split; [discriminate || congruence|]);
    assumption.
Qed.

Lemma escapar_empty (d : bytes) : Enlace.escapar d = [] ↔ d = [].
Proof.
  split; [|intros ->; reflexivity].
  destruct d as [|b d]; [reflexivity|].
  rewrite escapar_cons. unfold esc_byte, ESC_ESC, ESC_END.
  byte_cases b xdb; [|byte_cases b xc0]; discriminate.
Qed.

Lemma length_quadro_de (d : bytes) :
  length (Enlace.quadro_de d) = S (S (length (Enlace.escapar d))).
Proof.
  unfold Enlace.quadro_de, END. lengths. lia.
Qed.

Lemma undo_END (d : bytes) :
  bytes_replace (Enlace.escapar d) ESC_END END = bytes_replace d ESC ESC_ESC.
Proof.
  unfold ESC_END, END, ESC, ESC_ESC.
  induction d as [|b d IH]; [reflexivity|].
  rewrite escapar_cons, replace_byte_cons. unfold esc_byte, ESC_ESC, ESC_END.
  byte_cases b xdb; [|byte_cases b xc0]; cbn [app].
  - rewrite replace_pair_miss by discriminate.
    rewrite replace_pair_skip by discriminate. rewrite IH. reflexivity.
  - rewrite replace_pair_hit, IH. reflexivity.
  - rewrite replace_pair_skip by assumption. rewrite IH. reflexivity.
Qed.

Lemma undo_ESC (d : bytes) :
  bytes_replace (bytes_replace d ESC ESC_ESC) ESC_ESC ESC = d.
Proof.
  unfold ESC, ESC_ESC.
  induction d as [|b d IH]; [reflexivity|].
  rewrite replace_byte_cons.
  byte_cases b xdb; cbn [app].
  - rewrite replace_pair_hit, IH. reflexivity.
  - rewrite replace_pair_skip by assumption. rewrite IH. reflexivity.
Qed.

Lemma desescapar_escapar (d : bytes) : Enlace.desescapar (Enlace.escapar d) = d.
Proof.
  unfold Enlace.desescapar. rewrite undo_END. apply undo_ESC.
Qed.

(** ** The reassembly loop *)

Section Loop.
Context {E : Type}.
Implicit Types (w : Enlace.world E) (c : Enlace.completion E).

Lemma get_set_buffer b w : Enlace.get_buffer (Enlace.set_buffer b w) = b.
Proof. reflexivity. Qed.

Lemma set_set_buffer b b' w :
  Enlace.set_buffer b (Enlace.set_buffer b' w) = Enlace.set_buffer b w.
Proof. reflexivity. Qed.

Lemma set_buffer_id b w :
  Enlace.buffer (Enlace.self w) = Some b → Enlace.set_buffer b w = w.
Proof.
  destruct w as [[l cb bf] e tr]. simpl. intros ->. reflexivity.
Qed.

(** The dispatch neither reads nor writes the buffer. *)
Lemma dispatch_set_buffer d b w :
  Enlace.dispatch d (Enlace.set_buffer b w) =
  match Enlace.dispatch d w with
  | Enlace.Normal w' => Enlace.Normal (Enlace.set_buffer b w')
  | Enlace.Propagates e w' => Enlace.Propagates e (Enlace.set_buffer b w')
  end.
Proof.
  unfold Enlace.dispatch, Enlace.try_body.
  destruct w as [[l cb bf] e tr]. simpl.
  destruct cb as [[f|]|]; simpl; try reflexivity.
  destruct (f d e) as [[|x] e']; simpl; [reflexivity|].
  destruct (isinstance_Exception x); reflexivity.
Qed.

Lemma dispatch_self d w :
  Enlace.self (Enlace.world_of (Enlace.dispatch d w)) = Enlace.self w.
Proof.
  unfold Enlace.dispatch, Enlace.try_body.
  destruct (Enlace.callback (Enlace.self w)) as [[f|]|]; simpl; try reflexivity.
  destruct (f d (Enlace.env w)) as [[|x] e']; simpl; [reflexivity|].
  destruct (isinstance_Exception x); reflexivity.
Qed.

Lemma loop_done n w :
  xc0 ∉ Enlace.get_buffer w → Enlace.loop n w = Enlace.Normal w.
Proof.
  intros Hno. destruct n; [reflexivity|]. cbn [Enlace.loop]. unfold END.
  rewrite contains_byte_absent by assumption. reflexivity.
Qed.

Lemma loop_step n w q r :
  Enlace.get_buffer w = q ++ xc0 :: r → xc0 ∉ q →
  Enlace.loop (S n) w =
  match q with
  | [] => Enlace.loop n (Enlace.set_buffer r w)
  | _ :: _ =>
      match Enlace.dispatch (Enlace.desescapar q) (Enlace.set_buffer r w) with
      | Enlace.Normal w2 => Enlace.loop n w2
      | Enlace.Propagates e w2 => Enlace.Propagates e w2
      end
  end.
Proof.
  intros Hb Hq. cbn [Enlace.loop]. unfold END. rewrite Hb.
  rewrite contains_byte_first, partition_byte_first by assumption.
  reflexivity.
Qed.

(** Fuel beyond the buffer's length changes nothing: the loop ends by
    itself, when no delimiter is left. *)
Lemma loop_fuel n : ∀ m w,
  length (Enlace.get_buffer w) < n → length (Enlace.get_buffer w) < m →
  Enlace.loop n w = Enlace.loop m w.
Proof.
  induction n as [|n IH]; intros m w Hn Hm; [lia|].
  destruct m as [|m]; [lia|].
  destruct (split_first (Enlace.get_buffer w) xc0) as [Hno|(q & r & Hb & Hq)].
  { rewrite !loop_done by assumption. reflexivity. }
  rewrite !(loop_step _ w q r) by assumption.
  rewrite Hb in Hn, Hm.
  destruct q as [|b q]; lengths.
  - apply IH; rewrite get_set_buffer; lia.
  - rewrite dispatch_set_buffer.
    destruct (Enlace.dispatch _ w) as [w2|e w2]; [|reflexivity].
    apply IH; rewrite get_set_buffer; lia.
Qed.

(** Bytes that arrive after a pass has returned are processed as if
    they had been in the buffer during that pass. *)
Lemma loop_extend n : ∀ w w1 y m m',
  length (Enlace.get_buffer w) < n →
  Enlace.loop n w = Enlace.Normal w1 →
  length (Enlace.get_buffer w ++ y) < m →
  length (Enlace.get_buffer w1 ++ y) < m' →
  Enlace.loop m (Enlace.set_buffer (Enlace.get_buffer w ++ y) w) =
  Enlace.loop m' (Enlace.set_buffer (Enlace.get_buffer w1 ++ y) w1).
Proof.
  induction n as [|n IH]; intros w w1 y m m' Hn Hl Hm Hm'; [lia|].
  destruct (split_first (Enlace.get_buffer w) xc0) as [Hno|(q & r & Hb & Hq)].
  { rewrite loop_done in Hl by assumption. injection Hl as <-.
    apply loop_fuel; rewrite get_set_buffer; assumption. }
  rewrite (loop_step _ w q r) in Hl by assumption.
  destruct m as [|m]; [lia|].
  rewrite (loop_step m _ q (r ++ y)); [| |assumption]; cycle 1.
  { rewrite get_set_buffer, Hb, <- app_assoc. reflexivity. }
  rewrite set_set_buffer.
  rewrite Hb in Hn, Hm.
  destruct q as [|b q]; lengths.
  - rewrite <- (IH (Enlace.set_buffer r w) w1 y m m');
      [rewrite get_set_buffer, set_set_buffer; reflexivity
      |first [assumption | rewrite ?get_set_buffer; lengths; lia] ..].
  - rewrite dispatch_set_buffer in Hl |- *.
    destruct (Enlace.dispatch _ w) as [w2|e w2]; [|discriminate].
    rewrite <- (IH (Enlace.set_buffer r w2) w1 y m m');
      [rewrite get_set_buffer, set_set_buffer; reflexivity
      |first [assumption | rewrite ?get_set_buffer; lengths; lia] ..].
Qed.

Lemma raw_recv_unfold dados w :
  Enlace.__raw_recv dados w =
  Enlace.loop (S (length (Enlace.get_buffer w ++ dados)))
    (Enlace.set_buffer (Enlace.get_buffer w ++ dados) w).
Proof. reflexivity. Qed.

Lemma raw_recv_app a b w w1 :
  Enlace.__raw_recv a w = Enlace.Normal w1 →
  Enlace.__raw_recv (a ++ b) w = Enlace.__raw_recv b w1.
Proof.
  rewrite !raw_recv_unfold. intros Hl.
  pose proof (loop_extend _ _ _ b
    (S (length (Enlace.get_buffer w ++ a ++ b)))
    (S (length (Enlace.get_buffer w1 ++ b))) (Nat.lt_succ_diag_r _) Hl) as Hx.
  rewrite get_set_buffer, set_set_buffer, <- app_assoc in Hx.
  apply Hx; lia.
Qed.

(** When an exception leaves a pass, later bytes would only have been
    waiting in the buffer. *)
Lemma loop_extend_prop n : ∀ w w1 e y m,
  length (Enlace.get_buffer w) < n →
  Enlace.loop n w = Enlace.Propagates e w1 →
  length (Enlace.get_buffer w ++ y) < m →
  Enlace.loop m (Enlace.set_buffer (Enlace.get_buffer w ++ y) w) =
  Enlace.Propagates e (Enlace.set_buffer (Enlace.get_buffer w1 ++ y) w1).
Proof.
  induction n as [|n IH]; intros w w1 e y m Hn Hl Hm; [lia|].
  destruct (split_first (Enlace.get_buffer w) xc0) as [Hno|(q & r & Hb & Hq)].
  { rewrite loop_done in Hl by assumption. discriminate. }
  rewrite (loop_step _ w q r) in Hl by assumption.
  destruct m as [|m]; [lia|].
  rewrite (loop_step m _ q (r ++ y)); [| |assumption]; cycle 1.
  { rewrite get_set_buffer, Hb, <- app_assoc. reflexivity. }
  rewrite set_set_buffer.
  rewrite Hb in Hn, Hm.
  destruct q as [|b q]; lengths.
  - rewrite <- (IH (Enlace.set_buffer r w) w1 e y m);
      [rewrite get_set_buffer, set_set_buffer; reflexivity
      |first [assumption | rewrite ?get_set_buffer; lengths; lia] ..].
  - rewrite dispatch_set_buffer in Hl |- *.
    destruct (Enlace.dispatch _ w) as [w2|e2 w2].
    + rewrite <- (IH (Enlace.set_buffer r w2) w1 e y m);
        [rewrite get_set_buffer, set_set_buffer; reflexivity
        |first [assumption | rewrite ?get_set_buffer; lengths; lia] ..].
    + injection Hl as <- <-. reflexivity.
Qed.

Lemma raw_recv_app_prop a b w w1 e :
  Enlace.__raw_recv a w = Enlace.Propagates e w1 →
  Enlace.__raw_recv (a ++ b) w =
  Enlace.Propagates e (Enlace.set_buffer (Enlace.get_buffer w1 ++ b) w1).
Proof.
  rewrite !raw_recv_unfold. intros Hl.
  pose proof (loop_extend_prop _ _ _ _ b
    (S (length (Enlace.get_buffer w ++ a ++ b)))
    (Nat.lt_succ_diag_r _) Hl) as Hx.
  rewrite get_set_buffer, set_set_buffer, <- app_assoc in Hx.
  apply Hx; lia.
Qed.

(** Pieces against the whole: the same end when every call returns;
    the same exception after the same calls when one does not. *)
Lemma entregar_concat : ∀ (ps : list bytes) w,
  ps ≠ [] →
  match Enlace.entregar ps w with
  | Enlace.Normal w1 => Enlace.__raw_recv (concat ps) w = Enlace.Normal w1
  | Enlace.Propagates e w1 =>
      ∃ w2, Enlace.__raw_recv (concat ps) w = Enlace.Propagates e w2 ∧
            Enlace.trace w2 = Enlace.trace w1 ∧ Enlace.env w2 = Enlace.env w1
  end.
Proof.
  induction ps as [|p ps IH]; intros w Hne; [congruence|].
  cbn [Enlace.entregar concat].
  destruct (Enlace.__raw_recv p w) as [w1|e w1] eqn:Hp.
  - destruct ps as [|p' ps'].
    + cbn [Enlace.entregar concat]. rewrite app_nil_r. exact Hp.
    + rewrite (raw_recv_app p _ w w1 Hp). apply IH. discriminate.
  - rewrite (raw_recv_app_prop p _ w w1 e Hp). eexists. split; [reflexivity|].
    split; reflexivity.
Qed.

(** One pass over a buffer that starts with a whole frame: the leading
    delimiter gives an empty candidate, which is skipped; the escaped
    payload up to the closing delimiter is the next candidate. *)
Lemma loop_frame n w d resto :
  Enlace.get_buffer w = Enlace.quadro_de d ++ resto →
  Enlace.loop (S (S n)) w =
  match d with
  | [] => Enlace.loop n (Enlace.set_buffer resto w)
  | _ :: _ =>
      match Enlace.dispatch d (Enlace.set_buffer resto w) with
      | Enlace.Normal w2 => Enlace.loop n w2
      | Enlace.Propagates e w2 => Enlace.Propagates e w2
      end
  end.
Proof.
  intros Hb. unfold Enlace.quadro_de, END in Hb.
  rewrite <- !app_assoc in Hb. cbn [app] in Hb.
  rewrite (loop_step _ w [] (Enlace.escapar d ++ xc0 :: resto));
    [|exact Hb|apply not_elem_of_nil].
  rewrite (loop_step _ _ (Enlace.escapar d) resto);
    [|reflexivity|apply escapar_no_END].
  rewrite set_set_buffer.
  destruct d as [|b d]; [reflexivity|].
  destruct (Enlace.escapar (b :: d)) as [|b' q'] eqn:Hesc.
  { apply (proj1 (escapar_empty _)) in Hesc. discriminate. }
  rewrite <- Hesc, desescapar_escapar. reflexivity.
Qed.

(** Coalesced frames followed by the start of another one: each frame
    is dispatched in turn and the unterminated rest stays buffered. *)
Lemma loop_quadros f (Hf : so_Exception f) : ∀ ds w resto n,
  Enlace.callback (Enlace.self w) = Some (Some f) →
  Forall (λ d, d ≠ []) ds →
  xc0 ∉ resto →
  Enlace.buffer (Enlace.self w) = Some (concat (Enlace.quadro_de <$> ds) ++ resto) →
  length (concat (Enlace.quadro_de <$> ds) ++ resto) < n →
  Enlace.loop n w =
  Enlace.Normal (Enlace.World (Enlace.self (Enlace.set_buffer resto w))
                   (estado_final f ds (Enlace.env w))
                   (Enlace.trace w ++ eventos f ds (Enlace.env w))).
Proof.
  induction ds as [|d ds IH]; intros w resto n Hcb Hne Hr Hb Hn.
  - simpl in *. rewrite loop_done; [|unfold Enlace.get_buffer; rewrite Hb; exact Hr].
    rewrite app_nil_r. f_equal.
    rewrite <- (set_buffer_id resto w) at 1 by assumption.
    destruct w; reflexivity.
  - apply Forall_cons in Hne as [Hd Hne].
    rewrite fmap_cons in Hb, Hn. cbn [concat] in Hb, Hn.
    rewrite <- app_assoc in Hb, Hn.
    assert (∃ n', n = S (S n') ∧
              length (concat (Enlace.quadro_de <$> ds) ++ resto) < n')
      as (n' & -> & Hn').
    { rewrite length_app, length_quadro_de in Hn.
      exists (n - 2). split; lia. }
    rewrite (loop_frame n' w d (concat (Enlace.quadro_de <$> ds) ++ resto));
      [|unfold Enlace.get_buffer; rewrite Hb; reflexivity].
    destruct d as [|b d]; [congruence|].
    unfold Enlace.dispatch, Enlace.try_body. cbn [Enlace.set_buffer Enlace.self
      Enlace.callback Enlace.env Enlace.trace].
    rewrite Hcb. cbn [eventos estado_final].
    pose proof (Hf (b :: d) (Enlace.env w)) as Hx.
    destruct (f (b :: d) (Enlace.env w)) as [[|x] e']; cbn [fst snd] in *.
    + rewrite (IH _ resto n'); [|first [assumption | reflexivity | exact Hcb] ..].
      cbn [Enlace.set_buffer Enlace.self Enlace.callback Enlace.env
           Enlace.trace Enlace.linha_serial].
      rewrite <- app_assoc. reflexivity.
    + rewrite (Hx x eq_refl).
      rewrite (IH _ resto n'); [|first [assumption | reflexivity | exact Hcb] ..].
      cbn [Enlace.set_buffer Enlace.self Enlace.callback Enlace.env
           Enlace.trace Enlace.linha_serial Enlace.log].
      rewrite <- !app_assoc. reflexivity.
Qed.

(** What a pass that returns leaves in the buffer: the bytes after the
    last delimiter, and all of them. *)
Lemma loop_buffer n : ∀ w w',
  length (Enlace.get_buffer w) < n →
  Enlace.buffer (Enlace.self w) = Some (Enlace.get_buffer w) →
  Enlace.loop n w = Enlace.Normal w' →
  Enlace.buffer (Enlace.self w') = Some (Enlace.get_buffer w') ∧
  (xc0 ∉ Enlace.get_buffer w') ∧
  ∃ pre, Enlace.get_buffer w = pre ++ Enlace.get_buffer w' ∧
         (pre = [] ∨ ∃ p, pre = p ++ [xc0]).
Proof.
  induction n as [|n IH]; intros w w' Hn Hsome Hl; [lia|].
  destruct (split_first (Enlace.get_buffer w) xc0) as [Hno|(q & r & Hb & Hq)].
  { rewrite loop_done in Hl by assumption. injection Hl as <-.
    split; [assumption|]. split; [assumption|]. exists []. auto. }
  rewrite (loop_step _ w q r) in Hl by assumption.
  assert (∀ w2, Enlace.self w2 = Enlace.self (Enlace.set_buffer r w) →
                Enlace.loop n w2 = Enlace.Normal w' →
                Enlace.buffer (Enlace.self w') = Some (Enlace.get_buffer w') ∧
                (xc0 ∉ Enlace.get_buffer w') ∧
                ∃ pre, Enlace.get_buffer w = pre ++ Enlace.get_buffer w' ∧
                       (pre = [] ∨ ∃ p, pre = p ++ [xc0])) as Hnext.
  { intros w2 Hs Hl2.
    assert (Enlace.get_buffer w2 = r) as Hb2
      by (unfold Enlace.get_buffer; rewrite Hs; reflexivity).
    destruct (IH w2 w') as (H1 & H2 & pre & Hpre & Hend); [| |assumption|].
    { rewrite Hb2. rewrite Hb in Hn. lengths. lia. }
    { rewrite Hb2, Hs. reflexivity. }
    split; [assumption|]. split; [assumption|].
    exists (q ++ xc0 :: pre). split.
    { rewrite Hb, <- Hb2, Hpre, <- app_assoc. reflexivity. }
    right. destruct Hend as [->|(p & ->)].
    - exists q. reflexivity.
    - exists (q ++ xc0 :: p). rewrite <- app_assoc. reflexivity. }
  destruct q as [|b q]; [apply (Hnext _ eq_refl Hl)|].
  pose proof (dispatch_self (Enlace.desescapar (b :: q)) (Enlace.set_buffer r w)) as Hs.
  destruct (Enlace.dispatch _ _) as [w2|e w2]; [|discriminate].
  apply (Hnext w2 Hs Hl).
Qed.

(** A buffer of delimiters only is emptied without a dispatch. *)
Lemma loop_delims k : ∀ n w,
  k < n →
  Enlace.buffer (Enlace.self w) = Some (replicate k xc0) →
  Enlace.loop n w = Enlace.Normal (Enlace.set_buffer [] w).
Proof.
  induction k as [|k IH]; intros n w Hn Hb.
  - rewrite loop_done; [|unfold Enlace.get_buffer; rewrite Hb; apply not_elem_of_nil].
    rewrite set_buffer_id by exact Hb. reflexivity.
  - destruct n as [|n]; [lia|].
    rewrite (loop_step n w [] (replicate k xc0));
      [|unfold Enlace.get_buffer; rewrite Hb; reflexivity|apply not_elem_of_nil].
    rewrite (IH n); [reflexivity|lia|reflexivity].
Qed.

Lemma raw_recv_leaves_no_END w w' dados :
  Enlace.__raw_recv dados w = Enlace.Normal w' →
  Enlace.buffer (Enlace.self w') = Some (Enlace.get_buffer w') ∧
  xc0 ∉ Enlace.get_buffer w'.
Proof.
  rewrite raw_recv_unfold. intros Hl.
  apply loop_buffer in Hl as (Hsome & Hno & _);
    [auto|rewrite get_set_buffer; lia|reflexivity].
Qed.

Lemma chamadas_app (t1 t2 : list event) :
  Enlace.chamadas (t1 ++ t2) = Enlace.chamadas t1 ++ Enlace.chamadas t2.
Proof. apply omap_app. Qed.

Lemma chamadas_eventos (f : Enlace.callable E) ds : ∀ e,
  Enlace.chamadas (eventos f ds e) = ds.
Proof.
  induction ds as [|d ds IH]; intros e; [reflexivity|].
  cbn [eventos]. destruct (f d e) as [[|x] e']; simpl; f_equal; apply IH.
Qed.

(** Every byte string is a run of delimiter-terminated candidates
    followed by bytes without a delimiter. *)
Lemma split_candidates n : ∀ s : bytes,
  length s < n →
  ∃ qs resto, s = concat ((λ q, q ++ [xc0]) <$> qs) ++ resto ∧
              Forall (λ q, xc0 ∉ q) qs ∧ xc0 ∉ resto.
Proof.
  induction n as [|n IH]; intros s Hn; [lia|].
  destruct (split_first s xc0) as [Hno|(q & r & -> & Hq)].
  { exists [], s. split; [reflexivity|]. split; [constructor|assumption]. }
  destruct (IH r) as (qs & resto & -> & Hqs & Hr); [lengths; lia|].
  exists (q :: qs), resto. split; [|split; [constructor|]; assumption].
  rewrite fmap_cons. cbn [concat]. rewrite <- !app_assoc. reflexivity.
Qed.

(** The pass over such a buffer: empty candidates are skipped, the
    others are unescaped and dispatched in order, the rest stays. *)
Lemma loop_candidates f (Hf : so_Exception f) : ∀ qs w resto n,
  Enlace.callback (Enlace.self w) = Some (Some f) →
  Forall (λ q, xc0 ∉ q) qs →
  xc0 ∉ resto →
  Enlace.buffer (Enlace.self w) = Some (concat ((λ q, q ++ [xc0]) <$> qs) ++ resto) →
  length (concat ((λ q, q ++ [xc0]) <$> qs) ++ resto) < n →
  let ds := Enlace.desescapar <$> filter (λ q, q ≠ []) qs in
  Enlace.loop n w =
  Enlace.Normal (Enlace.World (Enlace.self (Enlace.set_buffer resto w))
                   (estado_final f ds (Enlace.env w))
                   (Enlace.trace w ++ eventos f ds (Enlace.env w))).
Proof.
  induction qs as [|q qs IH]; intros w resto n Hcb Hqs Hr Hb Hn.
  - simpl in *. rewrite loop_done; [|unfold Enlace.get_buffer; rewrite Hb; exact Hr].
    rewrite app_nil_r. f_equal.
    rewrite <- (set_buffer_id resto w) at 1 by assumption.
    destruct w; reflexivity.
  - apply Forall_cons in Hqs as [Hq Hqs].
    rewrite fmap_cons in Hb, Hn. cbn [concat] in Hb, Hn.
    rewrite <- !app_assoc in Hb, Hn. cbn [app] in Hb, Hn.
    destruct n as [|n]; [lia|].
    rewrite (loop_step n w q (concat ((λ q, q ++ [xc0]) <$> qs) ++ resto));
      [|unfold Enlace.get_buffer; rewrite Hb; reflexivity|assumption].
    assert (length (concat ((λ q, q ++ [xc0]) <$> qs) ++ resto) < n) as Hn'
      by (rewrite length_app in Hn; simpl in Hn; lia).
    destruct q as [|b q].
    + rewrite filter_cons_False by (intros H; apply H; reflexivity).
      rewrite (IH _ resto n); [reflexivity|first [assumption | reflexivity] ..].
    + rewrite filter_cons_True by discriminate. rewrite fmap_cons.
      unfold Enlace.dispatch, Enlace.try_body. cbn [Enlace.set_buffer Enlace.self
        Enlace.callback Enlace.env Enlace.trace].
      rewrite Hcb. cbn [eventos estado_final].
      pose proof (Hf (Enlace.desescapar (b :: q)) (Enlace.env w)) as Hx.
      destruct (f (Enlace.desescapar (b :: q)) (Enlace.env w)) as [[|x] e'];
        cbn [fst snd] in *.
      * rewrite (IH _ resto n); [|first [assumption | reflexivity | exact Hcb] ..].
        cbn [Enlace.set_buffer Enlace.self Enlace.callback Enlace.env
             Enlace.trace Enlace.linha_serial].
        rewrite <- app_assoc. reflexivity.
      * rewrite (Hx x eq_refl).
        rewrite (IH _ resto n); [|first [assumption | reflexivity | exact Hcb] ..].
        cbn [Enlace.set_buffer Enlace.self Enlace.callback Enlace.env
             Enlace.trace Enlace.linha_serial Enlace.log].
        rewrite <- !app_assoc. reflexivity.
Qed.
End Loop.

(** ** Framing: what [Enlace.enviar] puts on the line *)

Lemma filter_END_absent (l : bytes) :
  xc0 ∉ l → filter (λ b, b = xc0) l = [].
Proof.
  induction l as [|b l IH]; intros Hno; [reflexivity|].
  apply not_elem_of_cons in Hno as [Hne Hno].
  rewrite filter_cons_False by congruence. auto.
Qed.

Lemma escapar_pairs (d : bytes) : ∀ i,
  Enlace.escapar d !! i = Some xdb →
  Enlace.escapar d !! S i = Some xdc ∨ Enlace.escapar d !! S i = Some xdd.
Proof.
  induction d as [|b d IH]; intros i; [rewrite escapar_nil; discriminate|].
  rewrite escapar_cons. unfold esc_byte, ESC_ESC, ESC_END.
  byte_cases b xdb; [|byte_cases b xc0]; cbn [app].
  - destruct i as [|[|i]]; simpl; [auto|discriminate|apply IH].
  - destruct i as [|[|i]]; simpl; [auto|discriminate|apply IH].
  - destruct i as [|i]; simpl; [congruence|apply IH].
Qed.

(** C10. For every datagram, the payload after the two replacements of
    [Enlace.enviar] holds no 0xC0, so the frame handed to the line has
    exactly two 0xC0 bytes, its first and its last, and inside it every
    0xDB is directly followed by 0xDC or 0xDD. *)
Theorem frame_shape {E} (w : Enlace.world E) (d : bytes) :
  ∃ meio,
    meio = bytes_replace (bytes_replace d ESC ESC_ESC) END ESC_END ∧
    Enlace.trace (Enlace.enviar d w) =
      Enlace.trace w ++
      [LinhaEnviar (Enlace.linha_serial (Enlace.self w)) (xc0 :: meio ++ [xc0])] ∧
    (xc0 ∉ meio) ∧
    length (filter (λ b, b = xc0) (xc0 :: meio ++ [xc0])) = 2 ∧
    (∀ i, meio !! i = Some xdb →
          meio !! S i = Some xdc ∨ meio !! S i = Some xdd).
Proof.
  exists (Enlace.escapar d). split; [reflexivity|]. split; [reflexivity|].
  pose proof (escapar_no_END d) as Hno.
  split; [assumption|]. split; [|apply escapar_pairs].
  rewrite filter_cons_True by reflexivity.
  rewrite filter_app, filter_END_absent by assumption. reflexivity.
Qed.

(** ** Round trip *)

Section RoundTrip.
Context {E : Type}.
Implicit Types (w : Enlace.world E) (f : Enlace.callable E).

Lemma raw_recv_frame f w d :
  Enlace.callback (Enlace.self w) = Some (Some f) →
  Enlace.get_buffer w = [] →
  Enlace.chamadas (Enlace.trace (Enlace.world_of
    (Enlace.__raw_recv (Enlace.quadro_de d) w))) =
  Enlace.chamadas (Enlace.trace w) ++ match d with [] => [] | _ :: _ => [d] end.
Proof.
  intros Hcb Hb. rewrite raw_recv_unfold, Hb. cbn [app].
  rewrite length_quadro_de.
  rewrite (loop_frame _ _ d []);
    [|rewrite get_set_buffer, app_nil_r; reflexivity].
  destruct d as [|b d].
  - rewrite loop_done by apply not_elem_of_nil. simpl. rewrite app_nil_r. reflexivity.
  - unfold Enlace.dispatch, Enlace.try_body. cbn [Enlace.set_buffer Enlace.self
      Enlace.callback Enlace.env Enlace.trace].
    rewrite Hcb.
    destruct (f (b :: d) (Enlace.env w)) as [[|x] e'].
    + rewrite loop_done by apply not_elem_of_nil. simpl.
      rewrite chamadas_app. reflexivity.
    + destruct (isinstance_Exception x).
      * rewrite loop_done by apply not_elem_of_nil. simpl.
        rewrite !chamadas_app. simpl. rewrite app_nil_r. reflexivity.
      * simpl. rewrite chamadas_app. reflexivity.
Qed.
End RoundTrip.

(** C1, as stated, fails for the empty datagram: its frame is two
    delimiters, and [__raw_recv] discards empty candidates, so the
    callback is not called at all. *)
Lemma roundtrip_empty_counterexample :
  Enlace.quadro_de [] = [xc0; xc0] ∧
  Enlace.chamadas (Enlace.trace (Enlace.world_of
    (Enlace.__raw_recv (Enlace.quadro_de []) (enlace_novo guarda [])))) = [] ∧
  Enlace.chamadas (Enlace.trace (Enlace.world_of
    (Enlace.__raw_recv (Enlace.quadro_de []) (enlace_novo guarda [])))) ≠ [[]].
Proof.
  split; [reflexivity|]. split; [reflexivity|]. discriminate.
Qed.

(** C1 (amended). For every non-empty byte sequence [d], whatever 0xC0
    and 0xDB it holds, [Enlace.enviar] hands the line the frame
    [quadro_de d], and feeding that frame to [__raw_recv] of a link with
    a registered callback and an empty buffer calls the callback exactly
    once, with [d]. For the empty [d] the callback is not called. *)
Theorem roundtrip {E} (f : Enlace.callable E) (ws w : Enlace.world E) (d : bytes) :
  Enlace.callback (Enlace.self w) = Some (Some f) →
  Enlace.get_buffer w = [] →
  Enlace.enviados (Enlace.trace (Enlace.enviar d ws)) =
    Enlace.enviados (Enlace.trace ws) ++
    [(Enlace.linha_serial (Enlace.self ws), Enlace.quadro_de d)] ∧
  Enlace.chamadas (Enlace.trace (Enlace.world_of
    (Enlace.__raw_recv (Enlace.quadro_de d) w))) =
  Enlace.chamadas (Enlace.trace w) ++ match d with [] => [] | _ :: _ => [d] end.
Proof.
  intros Hcb Hb. split; [|apply (raw_recv_frame f); assumption].
  unfold Enlace.enviar, Enlace.log, Enlace.enviados. simpl.
  rewrite omap_app. reflexivity.
Qed.

Lemma roundtrip_witness :
  Enlace.enviados (Enlace.trace (Enlace.enviar [xdb; x41; xc0] (enlace_novo guarda []))) =
    [(0, [xc0; xdb; xdd; x41; xdb; xdc; xc0])] ∧
  Enlace.chamadas (Enlace.trace (Enlace.world_of
    (Enlace.__raw_recv [xc0; xdb; xdd; x41; xdb; xdc; xc0] (enlace_novo falha [])))) =
  [[xdb; x41; xc0]].
Proof.
  apply (roundtrip falha (enlace_novo guarda []) (enlace_novo falha []) [xdb; x41; xc0]);
    reflexivity.
Defined.

(** C4. [Enlace.enviar] of the two bytes 0xC0 0xDB hands the line exactly
    0xC0 0xDB 0xDC 0xDB 0xDD 0xC0, and [__raw_recv] of those six bytes on
    a link that has received nothing calls the callback exactly once,
    with 0xC0 0xDB. *)
Theorem concrete_scenario {E} (f : Enlace.callable E) (e : E) (ws : Enlace.world E) :
  Enlace.trace (Enlace.enviar [xc0; xdb] ws) =
    Enlace.trace ws ++
    [LinhaEnviar (Enlace.linha_serial (Enlace.self ws)) [xc0; xdb; xdc; xdb; xdd; xc0]] ∧
  Enlace.chamadas (Enlace.trace (Enlace.world_of
    (Enlace.__raw_recv [xc0; xdb; xdc; xdb; xdd; xc0] (enlace_novo f e)))) =
  [[xc0; xdb]].
Proof.
  split; [reflexivity|].
  change [xc0; xdb; xdc; xdb; xdd; xc0] with (Enlace.quadro_de [xc0; xdb]).
  apply (raw_recv_frame f (enlace_novo f e) [xc0; xdb]); reflexivity.
Qed.

(** ** Fragmentation and coalescing *)

(** C2. For every byte sequence (a concatenation of frames or not) and
    every way of cutting it into pieces given to successive
    [__raw_recv] calls, the datagrams handed to the callback, in order,
    are those of a single call with all the bytes; so are all events
    and the state behind the callback. When the single call returns,
    the piecewise delivery returns too, with the link in the very same
    state. *)
Theorem fragmentation_invariance {E} (w : Enlace.world E) (pedacos : list bytes) :
  pedacos ≠ [] →
  let partes := Enlace.entregar pedacos w in
  let inteiro := Enlace.__raw_recv (concat pedacos) w in
  Enlace.chamadas (Enlace.trace (Enlace.world_of partes)) =
    Enlace.chamadas (Enlace.trace (Enlace.world_of inteiro)) ∧
  Enlace.trace (Enlace.world_of partes) = Enlace.trace (Enlace.world_of inteiro) ∧
  Enlace.env (Enlace.world_of partes) = Enlace.env (Enlace.world_of inteiro) ∧
  (∀ w', inteiro = Enlace.Normal w' → partes = Enlace.Normal w').
Proof.
  intros Hne. cbv zeta. pose proof (entregar_concat pedacos w Hne) as H.
  destruct (Enlace.entregar pedacos w) as [w1|e w1].
  - rewrite H. repeat split. intros w' Hw. exact Hw.
  - destruct H as (w2 & -> & Ht & He). cbn [Enlace.world_of].
    rewrite Ht, He. repeat split. discriminate.
Qed.

Lemma fragmentation_invariance_witness :
  let partes := Enlace.entregar [[xc0]; [x41; x42]; [xc0; x43; xc0]] (enlace_novo guarda []) in
  let inteiro := Enlace.__raw_recv [xc0; x41; x42; xc0; x43; xc0] (enlace_novo guarda []) in
  Enlace.chamadas (Enlace.trace (Enlace.world_of partes)) =
    Enlace.chamadas (Enlace.trace (Enlace.world_of inteiro)) ∧
  Enlace.trace (Enlace.world_of partes) = Enlace.trace (Enlace.world_of inteiro) ∧
  Enlace.env (Enlace.world_of partes) = Enlace.env (Enlace.world_of inteiro) ∧
  (∀ w', inteiro = Enlace.Normal w' → partes = Enlace.Normal w').
Proof.
  apply (fragmentation_invariance (enlace_novo guarda [])
           [[xc0]; [x41; x42]; [xc0; x43; xc0]]).
  discriminate.
Defined.

(** The three deliveries 0xC0, then "AB", then 0xC0 "C" 0xC0 give the
    callback "AB" and then "C". *)
Example entrega_em_tres_pedacos :
  Enlace.entregar [[xc0]; [x41; x42]; [xc0; x43; xc0]] (enlace_novo guarda []) =
  Enlace.Normal
    (Enlace.World (Enlace.mk 0 (Some (Some guarda)) (Some []))
       [[x41; x42]; [x43]]
       [CallbackCall [x41; x42]; CallbackCall [x43]]).
Proof. reflexivity. Qed.

(** A callback that stops the program: the same calls either way, and
    what differs is only how much is left waiting in the buffer. *)
Example entrega_interrompida :
  Enlace.entregar [[xc0; x41; xc0; xc0; x42]; [xc0]] (enlace_novo sai []) =
    Enlace.Propagates (BaseExceptionOnly "SystemExit")
      (Enlace.World (Enlace.mk 0 (Some (Some sai)) (Some [xc0; x42]))
         [[x41]] [CallbackCall [x41]]) ∧
  Enlace.__raw_recv [xc0; x41; xc0; xc0; x42; xc0] (enlace_novo sai []) =
    Enlace.Propagates (BaseExceptionOnly "SystemExit")
      (Enlace.World (Enlace.mk 0 (Some (Some sai)) (Some [xc0; x42; xc0]))
         [[x41]] [CallbackCall [x41]]).
Proof. split; reflexivity. Qed.

(** C3, as stated, fails for a callback that raises an exception that
    is not an instance of [Exception]: with the frames of "A" and "B"
    in one chunk and a callback that calls [sys.exit()], SystemExit
    leaves [__raw_recv] at the first frame, so the callback is called
    once, not twice, and the second frame stays in the buffer. *)
Lemma coalescing_counterexample :
  Enlace.__raw_recv (concat (Enlace.quadro_de <$> [[x41]; [x42]])) (enlace_novo sai []) =
    Enlace.Propagates (BaseExceptionOnly "SystemExit")
      (Enlace.World (Enlace.mk 0 (Some (Some sai)) (Some [xc0; x42; xc0]))
         [[x41]] [CallbackCall [x41]]) ∧
  Enlace.chamadas (Enlace.trace (Enlace.world_of
    (Enlace.__raw_recv (concat (Enlace.quadro_de <$> [[x41]; [x42]]))
       (enlace_novo sai [])))) = [[x41]] ∧
  Enlace.chamadas (Enlace.trace (Enlace.world_of
    (Enlace.__raw_recv (concat (Enlace.quadro_de <$> [[x41]; [x42]]))
       (enlace_novo sai [])))) ≠ [[x41]; [x42]].
Proof.
  split; [reflexivity|]. split; [reflexivity|]. discriminate.
Qed.

(** C3 (amended). When every exception the callback raises is an
    instance of [Exception], then for every list of non-empty
    datagrams (two or more, or fewer), one [__raw_recv] call with
    their frames concatenated, on a link with a registered callback
    and an empty buffer, returns and has called the callback exactly
    once per frame, with the datagrams in the order of the frames. *)
Theorem coalescing {E} (f : Enlace.callable E) (w : Enlace.world E) (ds : list bytes) :
  Enlace.callback (Enlace.self w) = Some (Some f) →
  so_Exception f →
  Enlace.get_buffer w = [] →
  Forall (λ d, d ≠ []) ds →
  ∃ w', Enlace.__raw_recv (concat (Enlace.quadro_de <$> ds)) w = Enlace.Normal w' ∧
        Enlace.chamadas (Enlace.trace w') = Enlace.chamadas (Enlace.trace w) ++ ds ∧
        Enlace.buffer (Enlace.self w') = Some [].
Proof.
  intros Hcb Hf Hb Hne. rewrite raw_recv_unfold, Hb. cbn [app].
  rewrite (loop_quadros f Hf ds _ []).
  - eexists. split; [reflexivity|]. cbn [Enlace.trace Enlace.set_buffer].
    rewrite chamadas_app, chamadas_eventos. split; reflexivity.
  - exact Hcb.
  - assumption.
  - apply not_elem_of_nil.
  - rewrite app_nil_r. reflexivity.
  - rewrite app_nil_r. lia.
Qed.

Lemma coalescing_witness :
  ∃ w', Enlace.__raw_recv
          (concat (Enlace.quadro_de <$> [[x41; xc0]; [xdb]; [x42]]))
          (enlace_novo guarda []) = Enlace.Normal w' ∧
        Enlace.chamadas (Enlace.trace w') = [] ++ [[x41; xc0]; [xdb]; [x42]] ∧
        Enlace.buffer (Enlace.self w') = Some [].
Proof.
  apply (coalescing guarda (enlace_novo guarda []) [[x41; xc0]; [xdb]; [x42]]).
  - reflexivity.
  - intros d e x. discriminate.
  - reflexivity.
  - repeat constructor; discriminate.
Defined.

(** ** The reassembly buffer *)

(** C7. Whenever [__raw_recv] returns, the buffer holds no 0xC0: it is
    exactly the bytes that came after the last delimiter of the old
    buffer followed by the new chunk, none of them dropped; and when
    there was no delimiter at all, every byte is kept. *)
Theorem buffer_invariant {E} (w w' : Enlace.world E) (dados : bytes) :
  Enlace.__raw_recv dados w = Enlace.Normal w' →
  ∃ b pre,
    Enlace.buffer (Enlace.self w') = Some b ∧
    (xc0 ∉ b) ∧
    Enlace.get_buffer w ++ dados = pre ++ b ∧
    (pre = [] ∨ ∃ p, pre = p ++ [xc0]) ∧
    (xc0 ∉ Enlace.get_buffer w ++ dados → b = Enlace.get_buffer w ++ dados).
Proof.
  rewrite raw_recv_unfold. intros Hl.
  apply loop_buffer in Hl as (Hsome & Hno & pre & Hpre & Hend);
    [|rewrite get_set_buffer; lia|reflexivity].
  rewrite get_set_buffer in Hpre.
  exists (Enlace.get_buffer w'), pre. repeat split; try assumption.
  intros Hall. destruct Hend as [->|(p & ->)]; [symmetry; exact Hpre|].
  exfalso. apply Hall. rewrite Hpre, !elem_of_app. left. right. constructor.
Qed.

Lemma buffer_invariant_witness :
  ∃ b pre,
    Some [x43; xdb] = Some b ∧
    (xc0 ∉ b) ∧
    [x41] ++ [x42; xc0; xc0; x43; xdb] = pre ++ b ∧
    (pre = [] ∨ ∃ p, pre = p ++ [xc0]) ∧
    (xc0 ∉ [x41] ++ [x42; xc0; xc0; x43; xdb] → b = [x41] ++ [x42; xc0; xc0; x43; xdb]).
Proof.
  apply (buffer_invariant
           (Enlace.World (Enlace.mk 0 (Some (Some guarda)) (Some [x41])) [] [])
           (Enlace.World (Enlace.mk 0 (Some (Some guarda)) (Some [x43; xdb]))
              [[x41; x42]] [CallbackCall [x41; x42]])
           [x42; xc0; xc0; x43; xdb]).
  reflexivity.
Defined.

(** C8. A chunk of [n] delimiters and nothing else, on a link with an
    empty buffer, returns without calling the callback or producing any
    other event, and leaves the buffer empty; for every [n]. *)
Theorem only_delimiters {E} (w : Enlace.world E) (n : nat) :
  Enlace.get_buffer w = [] →
  ∃ w', Enlace.__raw_recv (replicate n xc0) w = Enlace.Normal w' ∧
        Enlace.trace w' = Enlace.trace w ∧
        Enlace.env w' = Enlace.env w ∧
        Enlace.buffer (Enlace.self w') = Some [].
Proof.
  intros Hb. rewrite raw_recv_unfold, Hb. cbn [app].
  rewrite (loop_delims n); [|rewrite length_replicate; lia|reflexivity].
  eexists. split; [reflexivity|]. repeat split.
Qed.

Lemma only_delimiters_witness :
  ∃ w', Enlace.__raw_recv (replicate 3 xc0) (enlace_novo sai []) = Enlace.Normal w' ∧
        Enlace.trace w' = [] ∧
        Enlace.env w' = [] ∧
        Enlace.buffer (Enlace.self w') = Some [].
Proof.
  apply (only_delimiters (enlace_novo sai []) 3). reflexivity.
Defined.

(** ** A callback that fails *)

(** C6, as stated, fails for an exception that is not an instance of
    [Exception]: [except Exception] does not catch SystemExit, so it
    leaves [__raw_recv] unreported, the second frame is never
    dispatched and stays in the buffer with its delimiters. *)
Lemma callback_failure_counterexample :
  Enlace.__raw_recv [xc0; x41; xc0; xc0; x42; xc0] (enlace_novo sai []) =
  Enlace.Propagates (BaseExceptionOnly "SystemExit")
    (Enlace.World (Enlace.mk 0 (Some (Some sai)) (Some [xc0; x42; xc0]))
       [[x41]] [CallbackCall [x41]]).
Proof. reflexivity. Qed.

(** C6 (amended). When whatever the callback raises is an instance of
    [Exception], [__raw_recv] always returns: the bytes at hand are a
    run of delimiter-terminated candidates [qs] and a rest without
    delimiter; every non-empty candidate is unescaped and handed to the
    callback, in order, also after a call that raised; every exception
    raised is printed right after its call; and the rest, free of
    delimiters, is what the buffer keeps. *)
Theorem callback_failure_contained {E} (f : Enlace.callable E)
    (w : Enlace.world E) (dados : bytes) :
  Enlace.callback (Enlace.self w) = Some (Some f) →
  so_Exception f →
  ∃ w' qs,
    Enlace.__raw_recv dados w = Enlace.Normal w' ∧
    Enlace.get_buffer w ++ dados =
      concat ((λ q, q ++ [xc0]) <$> qs) ++ Enlace.get_buffer w' ∧
    Forall (λ q, xc0 ∉ q) qs ∧
    (xc0 ∉ Enlace.get_buffer w') ∧
    Enlace.buffer (Enlace.self w') = Some (Enlace.get_buffer w') ∧
    Enlace.trace w' =
      Enlace.trace w ++
      eventos f (Enlace.desescapar <$> filter (λ q, q ≠ []) qs) (Enlace.env w).
Proof.
  intros Hcb Hf.
  destruct (split_candidates (S (length (Enlace.get_buffer w ++ dados)))
              (Enlace.get_buffer w ++ dados)) as (qs & resto & Hs & Hqs & Hr); [lia|].
  rewrite raw_recv_unfold, Hs.
  rewrite (loop_candidates f Hf qs _ resto);
    [|first [assumption | reflexivity | lia] ..].
  eexists _, qs. split; [reflexivity|]. simpl. auto.
Qed.

Lemma callback_failure_contained_witness :
  ∃ w' qs,
    Enlace.__raw_recv [xc0; x41; xc0; xc0; x42; xc0; x43]
      (enlace_novo falha_na_primeira []) = Enlace.Normal w' ∧
    [] ++ [xc0; x41; xc0; xc0; x42; xc0; x43] =
      concat ((λ q, q ++ [xc0]) <$> qs) ++ Enlace.get_buffer w' ∧
    Forall (λ q, xc0 ∉ q) qs ∧
    (xc0 ∉ Enlace.get_buffer w') ∧
    Enlace.buffer (Enlace.self w') = Some (Enlace.get_buffer w') ∧
    Enlace.trace w' =
      [] ++ eventos falha_na_primeira
              (Enlace.desescapar <$> filter (λ q, q ≠ []) qs) [].
Proof.
  apply (callback_failure_contained falha_na_primeira
           (enlace_novo falha_na_primeira []) [xc0; x41; xc0; xc0; x42; xc0; x43]).
  - reflexivity.
  - intros d e x. destruct e; simpl; intros H;
      [injection H as <-; reflexivity | discriminate].
Defined.

(** ** CamadaEnlace *)

Section Camada.
Context {U : Type}.
Implicit Types (c : CamadaEnlace.t U).

(** While the instance has no callback, a pass of any of its links
    returns, reports nothing and leaves the part above untouched. *)
Lemma loop_sem_recebedor n : ∀ w : Enlace.world (CamadaEnlace.acima U),
  Enlace.callback (Enlace.self w) = Some (Some CamadaEnlace._callback) →
  CamadaEnlace.callback (Enlace.env w) = None →
  ∃ w', Enlace.loop n w = Enlace.Normal w' ∧
        Enlace.env w' = Enlace.env w ∧
        Enlace.relatados (Enlace.trace w') = Enlace.relatados (Enlace.trace w).
Proof.
  induction n as [|n IH]; intros w Hcb Hnone; [simpl; eauto|].
  destruct (split_first (Enlace.get_buffer w) xc0) as [Hno|(q & r & Hb & Hq)].
  { rewrite loop_done by assumption. eauto. }
  rewrite (loop_step _ w q r) by assumption.
  destruct q as [|b q]; [apply (IH (Enlace.set_buffer r w)); assumption|].
  unfold Enlace.dispatch, Enlace.try_body. cbn [Enlace.set_buffer Enlace.self
    Enlace.callback Enlace.env Enlace.trace].
  rewrite Hcb. unfold CamadaEnlace._callback at 1. rewrite Hnone.
  match goal with |- context [Enlace.loop n ?w2] =>
    destruct (IH w2) as (w' & -> & He & Hrel); [reflexivity|exact Hnone|] end.
  exists w'. split; [reflexivity|]. split; [exact He|].
  rewrite Hrel. cbn [Enlace.trace]. unfold Enlace.relatados.
  rewrite omap_app. simpl. apply app_nil_r.
Qed.

(** What [__init__] sets up: no callback above, and in every link the
    bound [_callback], an empty reassembly state and the line given
    for its address. *)
Lemma init_enlaces (linhas : gmap string nat) (u : U) ip enlace :
  CamadaEnlace.enlaces (CamadaEnlace.__init__ linhas u) !! ip = Some enlace →
  CamadaEnlace.callback (CamadaEnlace.cima (CamadaEnlace.__init__ linhas u)) = None ∧
  Enlace.callback enlace = Some (Some CamadaEnlace._callback) ∧
  Enlace.buffer enlace = None ∧
  linhas !! ip = Some (Enlace.linha_serial enlace).
Proof.
  unfold CamadaEnlace.__init__. cbn [CamadaEnlace.enlaces CamadaEnlace.cima].
  rewrite lookup_fmap. destruct (linhas !! ip) as [l|]; [|discriminate].
  simpl. intros H. injection H as <-. auto.
Qed.
End Camada.

(** C5, as stated, fails in the error it names: for an address without
    a link the exception that leaves [CamadaEnlace.enviar] is the
    KeyError of the dictionary access [self.enlaces[next_hop]]; the
    module defines no AddressUnknownError and raises none. *)
Lemma routing_counterexample :
  CamadaEnlace.enviar [x41] "10.0.0.9" camada_exemplo =
    CamadaEnlace.Propagates (KeyError "10.0.0.9") camada_exemplo ∧
  nome_da_classe (KeyError "10.0.0.9") = "KeyError" ∧
  nome_da_classe (KeyError "10.0.0.9") ≠ "AddressUnknownError".
Proof.
  split; [vm_compute; reflexivity|]. split; [reflexivity|]. discriminate.
Qed.

(** C5 (amended). [CamadaEnlace.enviar] of a datagram to an address
    with a link makes that link hand its line the frame: exactly one
    transmission is added, on that line, none on any other line, and
    nothing else changes. To an address without a link it fails with
    Python's KeyError carrying the address (never silently dropped),
    nothing is transmitted on any line and the state is unchanged. *)
Theorem routing {U} (c : CamadaEnlace.t U) (d : bytes) (addr : string) :
  (∀ enlace, CamadaEnlace.enlaces c !! addr = Some enlace →
     ∃ c', CamadaEnlace.enviar d addr c = CamadaEnlace.Normal c' ∧
           Enlace.enviados (CamadaEnlace.trace c') =
             Enlace.enviados (CamadaEnlace.trace c) ++
             [(Enlace.linha_serial enlace, Enlace.quadro_de d)] ∧
           (∀ l, l ≠ Enlace.linha_serial enlace →
              filter (λ lq, lq.1 = l) (Enlace.enviados (CamadaEnlace.trace c')) =
              filter (λ lq, lq.1 = l) (Enlace.enviados (CamadaEnlace.trace c))) ∧
           CamadaEnlace.enlaces c' = CamadaEnlace.enlaces c ∧
           CamadaEnlace.cima c' = CamadaEnlace.cima c) ∧
  (CamadaEnlace.enlaces c !! addr = None →
     CamadaEnlace.enviar d addr c = CamadaEnlace.Propagates (KeyError addr) c).
Proof.
  unfold CamadaEnlace.enviar. split.
  - intros enlace Hl. rewrite Hl. eexists. split; [reflexivity|].
    cbn [CamadaEnlace.trace CamadaEnlace.enlaces CamadaEnlace.cima
         Enlace.enviar Enlace.log Enlace.trace Enlace.self Enlace.env].
    assert (Enlace.enviados (CamadaEnlace.trace c ++
              [LinhaEnviar (Enlace.linha_serial enlace) (Enlace.quadro_de d)]) =
            Enlace.enviados (CamadaEnlace.trace c) ++
              [(Enlace.linha_serial enlace, Enlace.quadro_de d)]) as ->
      by (unfold Enlace.enviados; rewrite omap_app; reflexivity).
    split; [reflexivity|]. split; [|split; [apply insert_id; exact Hl|reflexivity]].
    intros l Hne. rewrite filter_app, filter_cons_False, filter_nil, app_nil_r;
      [reflexivity|simpl; congruence].
  - intros ->. reflexivity.
Qed.

Lemma routing_witness :
  (∃ c', CamadaEnlace.enviar [x41] "10.0.0.2" camada_exemplo = CamadaEnlace.Normal c' ∧
         Enlace.enviados (CamadaEnlace.trace c') = [] ++ [(2, [xc0; x41; xc0])] ∧
         (∀ l, l ≠ 2 →
            filter (λ lq, lq.1 = l) (Enlace.enviados (CamadaEnlace.trace c')) =
            filter (λ lq, lq.1 = l) []) ∧
         CamadaEnlace.enlaces c' = CamadaEnlace.enlaces camada_exemplo ∧
         CamadaEnlace.cima c' = CamadaEnlace.cima camada_exemplo) ∧
  CamadaEnlace.enviar [x41] "10.0.0.9" camada_exemplo =
    CamadaEnlace.Propagates (KeyError "10.0.0.9") camada_exemplo.
Proof.
  split.
  - apply (proj1 (routing camada_exemplo [x41] "10.0.0.2")
             (Enlace.mk 2 (Some (Some CamadaEnlace._callback)) None)).
    vm_compute. reflexivity.
  - apply (proj2 (routing camada_exemplo [x41] "10.0.0.9")).
    vm_compute. reflexivity.
Defined.

(** C9. While the [CamadaEnlace] has no callback (the attribute holds
    [None]), whatever bytes a line gives one of its links, the call
    returns with no error reported and with the part above unchanged:
    every datagram decoded went to [_callback] and was dropped there.
    Nothing is kept for later: the link's buffer holds no complete
    frame, and [registrar_recebedor] afterwards only fills the slot,
    without handing anything to the new callback. *)
Theorem unregistered_drop {U} (c : CamadaEnlace.t U) (ip : string)
    (enlace : Enlace.t (CamadaEnlace.acima U)) (dados : bytes) :
  CamadaEnlace.enlaces c !! ip = Some enlace →
  Enlace.callback enlace = Some (Some CamadaEnlace._callback) →
  CamadaEnlace.callback (CamadaEnlace.cima c) = None →
  ∃ c',
    CamadaEnlace.linha_recebe ip dados c = CamadaEnlace.Normal c' ∧
    CamadaEnlace.cima c' = CamadaEnlace.cima c ∧
    Enlace.relatados (CamadaEnlace.trace c') = Enlace.relatados (CamadaEnlace.trace c) ∧
    (∃ enlace' b, CamadaEnlace.enlaces c' !! ip = Some enlace' ∧
                  Enlace.buffer enlace' = Some b ∧ xc0 ∉ b) ∧
    ∀ cb,
      CamadaEnlace.entregues (CamadaEnlace.cima (CamadaEnlace.registrar_recebedor cb c')) =
        CamadaEnlace.entregues (CamadaEnlace.cima c) ∧
      CamadaEnlace.camada_acima (CamadaEnlace.cima (CamadaEnlace.registrar_recebedor cb c')) =
        CamadaEnlace.camada_acima (CamadaEnlace.cima c) ∧
      CamadaEnlace.trace (CamadaEnlace.registrar_recebedor cb c') = CamadaEnlace.trace c'.
Proof.
  intros Hl Hcb Hnone. unfold CamadaEnlace.linha_recebe. rewrite Hl.
  set (w := Enlace.World enlace (CamadaEnlace.cima c) (CamadaEnlace.trace c)).
  destruct (loop_sem_recebedor (S (length (Enlace.get_buffer w ++ dados)))
              (Enlace.set_buffer (Enlace.get_buffer w ++ dados) w))
    as (w' & Hr & He & Hrel); [exact Hcb|exact Hnone|].
  rewrite <- raw_recv_unfold in Hr. rewrite Hr.
  destruct (raw_recv_leaves_no_END w w' dados Hr) as (Hsome & Hno).
  eexists. split; [reflexivity|].
  cbn [CamadaEnlace.cima CamadaEnlace.trace CamadaEnlace.enlaces
       CamadaEnlace.registrar_recebedor CamadaEnlace.entregues
       CamadaEnlace.camada_acima].
  split; [exact He|]. split; [exact Hrel|]. split.
  - exists (Enlace.self w'), (Enlace.get_buffer w').
    rewrite lookup_insert_eq. auto.
  - intros cb. rewrite He. auto.
Qed.

Lemma unregistered_drop_witness :
  ∃ c',
    CamadaEnlace.linha_recebe "10.0.0.1" [xc0; x41; xc0; x42] camada_exemplo =
      CamadaEnlace.Normal c' ∧
    CamadaEnlace.cima c' = CamadaEnlace.cima camada_exemplo ∧
    Enlace.relatados (CamadaEnlace.trace c') =
      Enlace.relatados (CamadaEnlace.trace camada_exemplo) ∧
    (∃ enlace' b, CamadaEnlace.enlaces c' !! "10.0.0.1" = Some enlace' ∧
                  Enlace.buffer enlace' = Some b ∧ xc0 ∉ b) ∧
    ∀ cb,
      CamadaEnlace.entregues (CamadaEnlace.cima (CamadaEnlace.registrar_recebedor cb c')) =
        CamadaEnlace.entregues (CamadaEnlace.cima camada_exemplo) ∧
      CamadaEnlace.camada_acima (CamadaEnlace.cima (CamadaEnlace.registrar_recebedor cb c')) =
        CamadaEnlace.camada_acima (CamadaEnlace.cima camada_exemplo) ∧
      CamadaEnlace.trace (CamadaEnlace.registrar_recebedor cb c') = CamadaEnlace.trace c'.
Proof.
  apply (unregistered_drop camada_exemplo "10.0.0.1"
           (Enlace.mk 1 (Some (Some CamadaEnlace._callback)) None)
           [xc0; x41; xc0; x42]).
  - vm_compute. reflexivity.
  - reflexivity.
  - reflexivity.
Defined.

(** * Further properties of the code *)

(** ** Escaping and unescaping, byte by byte *)

(** The two replacements of [enviar] work byte by byte, so the payload
    of a concatenation is the concatenation of the payloads. *)
Theorem escapar_app (a b : bytes) :
  Enlace.escapar (a ++ b) = Enlace.escapar a ++ Enlace.escapar b.
Proof.
  induction a as [|x a IH]; [reflexivity|].
  cbn [app]. rewrite !escapar_cons, IH, app_assoc. reflexivity.
Qed.

(** The frame is the datagram, one more byte for each 0xC0 and 0xDB in
    it, and the two delimiters: between [n + 2] and [2n + 2] bytes. *)
Theorem frame_length (d : bytes) :
  length (Enlace.quadro_de d) =
    length d + length (filter (λ b, b = xc0 ∨ b = xdb) d) + 2 ∧
  length d + 2 ≤ length (Enlace.quadro_de d) ≤ 2 * length d + 2.
Proof.
  assert (length (Enlace.escapar d) =
          length d + length (filter (λ b, b = xc0 ∨ b = xdb) d)) as Hesc.
  { induction d as [|b d IH]; [reflexivity|].
    rewrite escapar_cons, length_app, IH. unfold esc_byte, ESC_ESC, ESC_END.
    byte_cases b xdb; [|byte_cases b xc0].
    - rewrite filter_cons_True by auto. simpl. lia.
    - rewrite filter_cons_True by auto. simpl. lia.
    - rewrite filter_cons_False by (intros [?|?]; congruence). simpl. lia. }
  rewrite length_quadro_de, Hesc.
  pose proof (length_filter (λ b, b = xc0 ∨ b = xdb) d). lia.
Qed.

(** Two datagrams with the same frame are the same datagram. *)
Theorem quadro_de_inj (d1 d2 : bytes) :
  Enlace.quadro_de d1 = Enlace.quadro_de d2 → d1 = d2.
Proof.
  unfold Enlace.quadro_de, END. cbn [app]. intros H. injection H as H.
  apply app_inv_tail in H.
  rewrite <- (desescapar_escapar d1), <- (desescapar_escapar d2), H. reflexivity.
Qed.

Lemma quadro_de_inj_witness :
  [xc0; xdb] = [xc0; xdb].
Proof.
  apply (quadro_de_inj [xc0; xdb] [xc0; xdb]). reflexivity.
Defined.

Lemma replace_pair_single (b o1 o2 : byte) (new : bytes) :
  bytes_replace [b] [o1; o2] new = [b].
Proof.
  unfold bytes_replace. simpl. rewrite andb_false_r. reflexivity.
Qed.

Lemma undo_END_head (s : bytes) :
  head (bytes_replace s ESC_END END) = Some xdd → head s = Some xdd.
Proof.
  unfold ESC_END, END.
  destruct s as [|b1 [|b2 s]];
    [discriminate|rewrite replace_pair_single; intros H; exact H|].
  rewrite replace_pair_cons2.
  destruct (Byte.eqb b1 xdb && Byte.eqb b2 xdc); [discriminate|intros H; exact H].
Qed.

Lemma replace_pair_other (b : byte) (s : bytes) (o1 o2 : byte) (new : bytes) :
  head s ≠ Some o2 →
  bytes_replace (b :: s) [o1; o2] new = b :: bytes_replace s [o1; o2] new.
Proof.
  intros Hh. destruct s as [|b2 s]; [apply replace_pair_single|].
  rewrite replace_pair_cons2.
  rewrite (proj2 (byte_eqb_neq b2 o2)), andb_false_r; [reflexivity|].
  intros ->. apply Hh. reflexivity.
Qed.

Lemma desescapar_END (q : bytes) :
  Enlace.desescapar (xdb :: xdc :: q) = xc0 :: Enlace.desescapar q.
Proof.
  unfold Enlace.desescapar. unfold ESC_END at 1. unfold END at 1.
  rewrite replace_pair_hit. cbn [app]. unfold ESC_ESC at 1. unfold ESC at 1.
  rewrite replace_pair_skip by discriminate. reflexivity.
Qed.

Lemma desescapar_ESC (q : bytes) :
  Enlace.desescapar (xdb :: xdd :: q) = xdb :: Enlace.desescapar q.
Proof.
  unfold Enlace.desescapar. unfold ESC_END at 1. unfold END at 1.
  rewrite replace_pair_miss by discriminate.
  rewrite replace_pair_skip by discriminate.
  unfold ESC_ESC at 1. unfold ESC at 1. rewrite replace_pair_hit. reflexivity.
Qed.

Lemma desescapar_lone (b : byte) (q : bytes) :
  b ≠ xdc → b ≠ xdd →
  Enlace.desescapar (xdb :: b :: q) = xdb :: Enlace.desescapar (b :: q).
Proof.
  intros Hdc Hdd. unfold Enlace.desescapar. unfold ESC_END at 1. unfold END at 1.
  rewrite replace_pair_miss by assumption.
  unfold ESC_ESC at 1. unfold ESC at 1.
  rewrite replace_pair_other; [reflexivity|].
  intros Hh. apply undo_END_head in Hh. simpl in Hh. congruence.
Qed.

Lemma desescapar_plain_cons (b : byte) (q : bytes) :
  b ≠ xdb → Enlace.desescapar (b :: q) = b :: Enlace.desescapar q.
Proof.
  intros Hne. unfold Enlace.desescapar. unfold ESC_END at 1. unfold END at 1.
  rewrite replace_pair_skip by assumption.
  unfold ESC_ESC at 1. unfold ESC at 1.
  rewrite replace_pair_skip by assumption. reflexivity.
Qed.

(** The two replacements of line 101, one after the other, act as one
    pass from left to right: 0xDB 0xDC gives 0xC0, 0xDB 0xDD gives 0xDB,
    and every other byte, also a 0xDB followed by something else or by
    nothing, is kept as it is. *)
Theorem desescapar_single_pass :
  Enlace.desescapar [] = [] ∧
  (∀ q, Enlace.desescapar (xdb :: xdc :: q) = xc0 :: Enlace.desescapar q) ∧
  (∀ q, Enlace.desescapar (xdb :: xdd :: q) = xdb :: Enlace.desescapar q) ∧
  (∀ b q, b ≠ xdc → b ≠ xdd →
     Enlace.desescapar (xdb :: b :: q) = xdb :: Enlace.desescapar (b :: q)) ∧
  Enlace.desescapar [xdb] = [xdb] ∧
  (∀ b q, b ≠ xdb → Enlace.desescapar (b :: q) = b :: Enlace.desescapar q).
Proof.
  split; [reflexivity|]. split; [exact desescapar_END|].
  split; [exact desescapar_ESC|]. split; [exact desescapar_lone|].
  split; [reflexivity|exact desescapar_plain_cons].
Qed.

Lemma desescapar_single_pass_witness :
  Enlace.desescapar [xdb; x41; xdb; xdc] = xdb :: Enlace.desescapar [x41; xdb; xdc] ∧
  Enlace.desescapar [x41; xdb; xdd] = x41 :: Enlace.desescapar [xdb; xdd].
Proof.
  destruct desescapar_single_pass as (_ & _ & _ & Hlone & _ & Hplain).
  split; [apply Hlone; discriminate|apply Hplain; discriminate].
Defined.

Lemma desescapar_nonempty (q : bytes) : q ≠ [] → Enlace.desescapar q ≠ [].
Proof.
  pose proof desescapar_END as Hend. pose proof desescapar_ESC as Hesc.
  pose proof desescapar_lone as Hlone. pose proof desescapar_plain_cons as Hplain.
  destruct q as [|b q]; [congruence|]. intros _.
  destruct (decide (b = xdb)) as [->|Hb]; [|rewrite Hplain by assumption; discriminate].
  destruct q as [|b2 q]; [discriminate|].
  destruct (decide (b2 = xdc)) as [->|Hdc]; [rewrite Hend; discriminate|].
  destruct (decide (b2 = xdd)) as [->|Hdd]; [rewrite Hesc; discriminate|].
  rewrite Hlone by assumption. discriminate.
Qed.

(** A datagram without 0xC0 and 0xDB travels as it is between the two
    delimiters, and a received candidate without 0xDB is handed on as
    it is. *)
Theorem plain_bytes_unchanged (d : bytes) :
  (xc0 ∉ d → xdb ∉ d → Enlace.quadro_de d = xc0 :: d ++ [xc0]) ∧
  (xdb ∉ d → Enlace.desescapar d = d).
Proof.
  split.
  - intros Hc Hd. unfold Enlace.quadro_de, END. cbn [app]. do 2 f_equal.
    induction d as [|b d IH]; [reflexivity|].
    apply not_elem_of_cons in Hc as [Hc1 Hc2].
    apply not_elem_of_cons in Hd as [Hd1 Hd2].
    rewrite escapar_cons, IH by assumption. unfold esc_byte.
    rewrite (proj2 (byte_eqb_neq b xdb)), (proj2 (byte_eqb_neq b xc0)) by congruence.
    reflexivity.
  - induction d as [|b d IH]; [reflexivity|]. intros Hd.
    apply not_elem_of_cons in Hd as [Hd1 Hd2].
    rewrite desescapar_plain_cons, IH by congruence. reflexivity.
Qed.

Lemma plain_bytes_unchanged_witness :
  Enlace.quadro_de [x41; xdc; xdd] = xc0 :: [x41; xdc; xdd] ++ [xc0] ∧
  Enlace.desescapar [x41; xdc; xdd] = [x41; xdc; xdd].
Proof.
  split.
  - apply (proj1 (plain_bytes_unchanged [x41; xdc; xdd]));
      intros H; repeat (apply elem_of_cons in H as [H|H]; [discriminate|]);
      inversion H.
  - apply (proj2 (plain_bytes_unchanged [x41; xdc; xdd])).
    intros H; repeat (apply elem_of_cons in H as [H|H]; [discriminate|]);
      inversion H.
Defined.

(** ** More on the reassembly loop *)

Section Dispatch.
Context {E : Type}.
Implicit Types (w : Enlace.world E) (f : Enlace.callable E).

(** What the [try] statement does with a registered callback. *)
Lemma dispatch_registered f d w :
  Enlace.callback (Enlace.self w) = Some (Some f) →
  Enlace.dispatch d w =
  match f d (Enlace.env w) with
  | (Returns, e') =>
      Enlace.Normal (Enlace.World (Enlace.self w) e' (Enlace.trace w ++ [CallbackCall d]))
  | (Raises x, e') =>
      if isinstance_Exception x
      then Enlace.Normal (Enlace.World (Enlace.self w) e'
                            (Enlace.trace w ++ [CallbackCall d; PrintExc x]))
      else Enlace.Propagates x (Enlace.World (Enlace.self w) e'
                                  (Enlace.trace w ++ [CallbackCall d]))
  end.
Proof.
  intros Hcb. unfold Enlace.dispatch, Enlace.try_body. rewrite Hcb.
  destruct (f d (Enlace.env w)) as [[|x] e']; [reflexivity|].
  destruct (isinstance_Exception x); [|reflexivity].
  unfold Enlace.log. cbn [Enlace.self Enlace.env Enlace.trace].
  rewrite <- app_assoc. reflexivity.
Qed.

Lemma dispatch_propagates d w e w' :
  Enlace.dispatch d w = Enlace.Propagates e w' →
  isinstance_Exception e = false ∧
  Enlace.self w' = Enlace.self w ∧
  Enlace.trace w' = Enlace.trace w ++ [CallbackCall d].
Proof.
  unfold Enlace.dispatch, Enlace.try_body.
  destruct (Enlace.callback (Enlace.self w)) as [[f|]|]; simpl; try discriminate.
  destruct (f d (Enlace.env w)) as [[|x] e']; [discriminate|].
  destruct (isinstance_Exception x) eqn:Hx; [discriminate|].
  intros H. injection H as <- <-. auto.
Qed.

Lemma dispatch_trace d w :
  ∃ evs, Enlace.trace (Enlace.world_of (Enlace.dispatch d w)) = Enlace.trace w ++ evs ∧
         (Enlace.chamadas evs = [] ∨ Enlace.chamadas evs = [d]).
Proof.
  unfold Enlace.dispatch, Enlace.try_body.
  destruct (Enlace.callback (Enlace.self w)) as [[f|]|]; simpl.
  - destruct (f d (Enlace.env w)) as [[|x] e']; simpl.
    + exists [CallbackCall d]. auto.
    + destruct (isinstance_Exception x); simpl.
      * exists [CallbackCall d; PrintExc x]. rewrite <- app_assoc. auto.
      * exists [CallbackCall d]. auto.
  - exists []. rewrite app_nil_r. auto.
  - exists [PrintExc (AttributeError "callback")]. auto.
Qed.

(** Leading delimiters are consumed one by one without any effect. *)
Lemma loop_skip_delims k : ∀ n m w rest,
  Enlace.buffer (Enlace.self w) = Some (replicate k xc0 ++ rest) →
  k + length rest < n → length rest < m →
  Enlace.loop n w = Enlace.loop m (Enlace.set_buffer rest w).
Proof.
  induction k as [|k IH]; intros n m w rest Hb Hn Hm.
  - rewrite (set_buffer_id rest w) by exact Hb.
    apply loop_fuel; unfold Enlace.get_buffer; rewrite Hb; simpl; lia.
  - destruct n as [|n]; [lia|].
    rewrite (loop_step n w [] (replicate k xc0 ++ rest));
      [|unfold Enlace.get_buffer; rewrite Hb; reflexivity|apply not_elem_of_nil].
    rewrite (IH n m _ rest); [reflexivity|reflexivity|lia|lia].
Qed.

(** A buffer with one candidate, closed by the last byte: one dispatch,
    and the buffer is empty when the callback runs. *)
Lemma loop_one k n w q :
  Enlace.buffer (Enlace.self w) = Some (replicate k xc0 ++ q ++ [xc0]) →
  xc0 ∉ q → q ≠ [] →
  k + length (q ++ [xc0]) < n →
  Enlace.loop n w = Enlace.dispatch (Enlace.desescapar q) (Enlace.set_buffer [] w).
Proof.
  intros Hb Hq Hne Hn.
  rewrite (loop_skip_delims k n (S (length (q ++ [xc0]))) w (q ++ [xc0]));
    [|assumption|lia|lia].
  rewrite (loop_step _ _ q []); [|reflexivity|assumption].
  rewrite set_set_buffer. destruct q as [|b q]; [congruence|].
  pose proof (dispatch_self (Enlace.desescapar (b :: q)) (Enlace.set_buffer [] w)) as Hs.
  destruct (Enlace.dispatch _ _) as [w2|e w2]; [|reflexivity].
  apply loop_done. unfold Enlace.get_buffer. simpl in Hs. rewrite Hs.
  apply not_elem_of_nil.
Qed.

Lemma raw_recv_one k w dados q :
  Enlace.get_buffer w ++ dados = replicate k xc0 ++ q ++ [xc0] →
  xc0 ∉ q → q ≠ [] →
  Enlace.__raw_recv dados w =
  Enlace.dispatch (Enlace.desescapar q) (Enlace.set_buffer [] w).
Proof.
  intros Hb Hq Hne. rewrite raw_recv_unfold, Hb.
  rewrite (loop_one k _ _ q); [rewrite set_set_buffer; reflexivity
                              |reflexivity|assumption|assumption|].
  rewrite !length_app, length_replicate. lia.
Qed.

(** The pass over a run of candidates when every dispatch does the same
    thing whatever the datagram: adds the events [evs] and goes on. *)
Lemma loop_candidates_const (evs : list event) : ∀ qs w resto n,
  (∀ d w0, Enlace.callback (Enlace.self w0) = Enlace.callback (Enlace.self w) →
     Enlace.dispatch d w0 =
     Enlace.Normal (Enlace.World (Enlace.self w0) (Enlace.env w0) (Enlace.trace w0 ++ evs))) →
  Forall (λ q, xc0 ∉ q) qs →
  xc0 ∉ resto →
  Enlace.buffer (Enlace.self w) = Some (concat ((λ q, q ++ [xc0]) <$> qs) ++ resto) →
  length (concat ((λ q, q ++ [xc0]) <$> qs) ++ resto) < n →
  Enlace.loop n w =
  Enlace.Normal (Enlace.World (Enlace.self (Enlace.set_buffer resto w)) (Enlace.env w)
                   (Enlace.trace w ++
                    concat (replicate (length (filter (λ q, q ≠ []) qs)) evs))).
Proof.
  induction qs as [|q qs IH]; intros w resto n Hd Hqs Hr Hb Hn.
  - simpl in *. rewrite loop_done; [|unfold Enlace.get_buffer; rewrite Hb; exact Hr].
    rewrite app_nil_r. f_equal.
    rewrite <- (set_buffer_id resto w) at 1 by assumption.
    destruct w; reflexivity.
  - apply Forall_cons in Hqs as [Hq Hqs].
    rewrite fmap_cons in Hb, Hn. cbn [concat] in Hb, Hn.
    rewrite <- !app_assoc in Hb, Hn. cbn [app] in Hb, Hn.
    destruct n as [|n]; [lia|].
    rewrite (loop_step n w q (concat ((λ q, q ++ [xc0]) <$> qs) ++ resto));
      [|unfold Enlace.get_buffer; rewrite Hb; reflexivity|assumption].
    assert (length (concat ((λ q, q ++ [xc0]) <$> qs) ++ resto) < n) as Hn'
      by (rewrite length_app in Hn; simpl in Hn; lia).
    destruct q as [|b q].
    + rewrite filter_cons_False by (intros H; apply H; reflexivity).
      rewrite (IH _ resto n); [reflexivity|exact Hd|assumption|assumption|reflexivity|assumption].
    + rewrite filter_cons_True by discriminate.
      rewrite Hd by reflexivity.
      rewrite (IH _ resto n); [|exact Hd|assumption|assumption|reflexivity|assumption].
      cbn [Enlace.set_buffer Enlace.self Enlace.callback Enlace.env Enlace.trace
           Enlace.linha_serial length replicate concat].
      rewrite <- app_assoc. reflexivity.
Qed.

Lemma concat_replicate_singleton {A} (k : nat) (x : A) :
  concat (replicate k [x]) = replicate k x.
Proof. induction k as [|k IH]; [reflexivity|]. simpl. rewrite IH. reflexivity. Qed.

Lemma concat_replicate_nil {A} (k : nat) : concat (replicate k (@nil A)) = [].
Proof. induction k as [|k IH]; [reflexivity|]. simpl. exact IH. Qed.

(** Every pass only adds to the trace, and no datagram it hands to the
    callback is empty. *)
Lemma loop_only_appends n : ∀ w,
  ∃ novos, Enlace.trace (Enlace.world_of (Enlace.loop n w)) = Enlace.trace w ++ novos ∧
           Forall (λ d, d ≠ []) (Enlace.chamadas novos).
Proof.
  induction n as [|n IH]; intros w.
  { exists []. simpl. rewrite app_nil_r. split; [reflexivity|constructor]. }
  destruct (split_first (Enlace.get_buffer w) xc0) as [Hno|(q & r & Hb & Hq)].
  { rewrite loop_done by assumption. exists []. simpl. rewrite app_nil_r.
    split; [reflexivity|constructor]. }
  rewrite (loop_step _ w q r) by assumption.
  destruct q as [|b q]; [apply (IH (Enlace.set_buffer r w))|].
  destruct (dispatch_trace (Enlace.desescapar (b :: q)) (Enlace.set_buffer r w))
    as (evs & Ht & Hev).
  assert (Forall (λ d, d ≠ []) (Enlace.chamadas evs)) as Hfa.
  { destruct Hev as [->| ->]; [constructor|].
    constructor; [apply desescapar_nonempty; discriminate|constructor]. }
  destruct (Enlace.dispatch _ _) as [w2|e w2]; cbn [Enlace.world_of] in Ht.
  - destruct (IH w2) as (novos & Hn2 & Hfa2).
    exists (evs ++ novos). rewrite Hn2, Ht. cbn [Enlace.set_buffer Enlace.trace].
    rewrite <- app_assoc. split; [reflexivity|].
    rewrite chamadas_app. apply Forall_app. auto.
  - exists evs. cbn [Enlace.world_of]. rewrite Ht. auto.
Qed.

(** Where a pass stands when an exception leaves it. *)
Lemma loop_propagates n : ∀ w e w',
  length (Enlace.get_buffer w) < n →
  Enlace.loop n w = Enlace.Propagates e w' →
  ∃ pre q tr,
    Enlace.get_buffer w = pre ++ q ++ xc0 :: Enlace.get_buffer w' ∧
    (pre = [] ∨ ∃ p, pre = p ++ [xc0]) ∧
    (xc0 ∉ q) ∧ q ≠ [] ∧
    Enlace.trace w' = tr ++ [CallbackCall (Enlace.desescapar q)] ∧
    isinstance_Exception e = false ∧
    Enlace.buffer (Enlace.self w') = Some (Enlace.get_buffer w').
Proof.
  induction n as [|n IH]; intros w e w' Hn Hl; [lia|].
  destruct (split_first (Enlace.get_buffer w) xc0) as [Hno|(q & r & Hb & Hq)].
  { rewrite loop_done in Hl by assumption. discriminate. }
  rewrite (loop_step _ w q r) in Hl by assumption.
  assert (length r < n) as Hr by (rewrite Hb in Hn; lengths; lia).
  assert (∀ w2, Enlace.self w2 = Enlace.self (Enlace.set_buffer r w) →
                Enlace.loop n w2 = Enlace.Propagates e w' →
                ∃ pre q0 tr,
                  Enlace.get_buffer w = pre ++ q0 ++ xc0 :: Enlace.get_buffer w' ∧
                  (pre = [] ∨ ∃ p, pre = p ++ [xc0]) ∧
                  (xc0 ∉ q0) ∧ q0 ≠ [] ∧
                  Enlace.trace w' = tr ++ [CallbackCall (Enlace.desescapar q0)] ∧
                  isinstance_Exception e = false ∧
                  Enlace.buffer (Enlace.self w') = Some (Enlace.get_buffer w')) as Hnext.
  { intros w2 Hs Hl2.
    assert (Enlace.get_buffer w2 = r) as Hb2
      by (unfold Enlace.get_buffer; rewrite Hs; reflexivity).
    destruct (IH w2 e w') as (pre & q0 & tr & Hpre & Hend & H1 & H2 & H3 & H4 & H5);
      [rewrite Hb2; exact Hr|exact Hl2|].
    exists (q ++ xc0 :: pre), q0, tr. repeat split; try assumption.
    - rewrite Hb, <- Hb2, Hpre, <- app_assoc. reflexivity.
    - right. destruct Hend as [->|(p & ->)].
      + exists q. reflexivity.
      + exists (q ++ xc0 :: p). rewrite <- app_assoc. reflexivity. }
  destruct q as [|b q]; [apply (Hnext _ eq_refl Hl)|].
  pose proof (dispatch_self (Enlace.desescapar (b :: q)) (Enlace.set_buffer r w)) as Hs.
  destruct (Enlace.dispatch _ _) as [w2|e2 w2] eqn:Hd; [apply (Hnext w2 Hs Hl)|].
  injection Hl as -> ->.
  apply dispatch_propagates in Hd as (Hx & Hself & Htr).
  assert (Enlace.get_buffer w' = r) as Hb2
    by (unfold Enlace.get_buffer; rewrite Hself; reflexivity).
  exists [], (b :: q), (Enlace.trace w). repeat split; try assumption.
  - rewrite Hb, Hb2. reflexivity.
  - left. reflexivity.
  - discriminate.
  - rewrite Hb2, Hself. reflexivity.
Qed.
End Dispatch.

Section Padding.
Context {E : Type}.
Implicit Types (w : Enlace.world E) (f : Enlace.callable E).

(** Frames without their own leading delimiter, each followed by one
    or more delimiters, after any number of delimiters. *)
Lemma loop_padded f (Hf : so_Exception f) : ∀ (dks : list (bytes * nat)) k0 w n,
  Enlace.callback (Enlace.self w) = Some (Some f) →
  Forall (λ dk, dk.1 ≠ []) dks →
  Enlace.buffer (Enlace.self w) =
    Some (replicate k0 xc0 ++
          concat ((λ dk, Enlace.escapar dk.1 ++ replicate (S dk.2) xc0) <$> dks)) →
  length (replicate k0 xc0 ++
          concat ((λ dk, Enlace.escapar dk.1 ++ replicate (S dk.2) xc0) <$> dks)) < n →
  Enlace.loop n w =
  Enlace.Normal (Enlace.World (Enlace.self (Enlace.set_buffer [] w))
                   (estado_final f dks.*1 (Enlace.env w))
                   (Enlace.trace w ++ eventos f dks.*1 (Enlace.env w))).
Proof.
  induction dks as [|[d k] dks IH]; intros k0 w n Hcb Hne Hb Hn.
  - simpl in Hb, Hn. rewrite app_nil_r in Hb, Hn. rewrite length_replicate in Hn.
    rewrite (loop_delims k0 n w Hn Hb). simpl. rewrite app_nil_r. reflexivity.
  - apply Forall_cons in Hne as [Hd Hne]. cbn [fst] in Hd.
    rewrite fmap_cons in Hb, Hn. cbn [concat fst snd] in Hb, Hn.
    set (rest := concat ((λ dk, Enlace.escapar dk.1 ++ replicate (S dk.2) xc0) <$> dks))
      in *.
    assert ((Enlace.escapar d ++ replicate (S k) xc0) ++ rest =
            Enlace.escapar d ++ xc0 :: (replicate k xc0 ++ rest)) as Hshape
      by (rewrite <- app_assoc; reflexivity).
    rewrite Hshape in Hb, Hn. rewrite length_app, length_replicate in Hn.
    rewrite (loop_skip_delims k0 n
               (S (length (Enlace.escapar d ++ xc0 :: (replicate k xc0 ++ rest)))) w _ Hb);
      [|lia|lia].
    rewrite (loop_step _ _ (Enlace.escapar d) (replicate k xc0 ++ rest));
      [|reflexivity|apply escapar_no_END].
    rewrite set_set_buffer.
    destruct (Enlace.escapar d) as [|b' q'] eqn:Hesc.
    { apply (proj1 (escapar_empty _)) in Hesc. congruence. }
    rewrite <- Hesc, desescapar_escapar.
    rewrite (dispatch_registered f) by exact Hcb.
    cbn [Enlace.set_buffer Enlace.self Enlace.env Enlace.trace fmap list_fmap fst
         eventos estado_final].
    pose proof (Hf d (Enlace.env w)) as Hx.
    assert (length (replicate k xc0 ++ rest) <
            length (Enlace.escapar d ++ xc0 :: replicate k xc0 ++ rest)) as Hlen
      by (rewrite (length_app (Enlace.escapar d)); simpl; lia).
    destruct (f d (Enlace.env w)) as [[|x] e']; cbn [fst snd] in *.
    + rewrite (IH k); [|exact Hcb|assumption|reflexivity|exact Hlen].
      cbn [Enlace.set_buffer Enlace.self Enlace.callback Enlace.env Enlace.trace
           Enlace.linha_serial].
      rewrite <- app_assoc. reflexivity.
    + rewrite (Hx x eq_refl).
      rewrite (IH k); [|exact Hcb|assumption|reflexivity|exact Hlen].
      cbn [Enlace.set_buffer Enlace.self Enlace.callback Enlace.env Enlace.trace
           Enlace.linha_serial].
      rewrite <- app_assoc. reflexivity.
Qed.
End Padding.

(** ** What [__raw_recv] does around the claims' cases *)

(** Delimiters are shared and repeated freely. After any number of
    leading delimiters, escaped non-empty datagrams that are each
    followed by one or more delimiters are handed to the callback once
    each, in order: a frame needs no delimiter of its own in front, and
    extra delimiters add no call. *)
Theorem delimiter_padding {E} (f : Enlace.callable E) (w : Enlace.world E)
    (k0 : nat) (dks : list (bytes * nat)) :
  Enlace.callback (Enlace.self w) = Some (Some f) →
  so_Exception f →
  Enlace.get_buffer w = [] →
  Forall (λ dk, dk.1 ≠ []) dks →
  ∃ w',
    Enlace.__raw_recv
      (replicate k0 xc0 ++
       concat ((λ dk, Enlace.escapar dk.1 ++ replicate (S dk.2) xc0) <$> dks)) w =
      Enlace.Normal w' ∧
    Enlace.chamadas (Enlace.trace w') = Enlace.chamadas (Enlace.trace w) ++ dks.*1 ∧
    Enlace.buffer (Enlace.self w') = Some [].
Proof.
  intros Hcb Hf Hb Hne. rewrite raw_recv_unfold, Hb. cbn [app].
  rewrite (loop_padded f Hf dks k0); [|exact Hcb|assumption|reflexivity|lia].
  eexists. split; [reflexivity|]. cbn [Enlace.trace Enlace.set_buffer].
  rewrite chamadas_app, chamadas_eventos. split; reflexivity.
Qed.

Lemma delimiter_padding_witness :
  ∃ w',
    Enlace.__raw_recv [x41; xc0; x42; xdb; xdc; xc0; xc0; xc0]
      (enlace_novo guarda []) = Enlace.Normal w' ∧
    Enlace.chamadas (Enlace.trace w') = [] ++ [[x41]; [x42; xc0]] ∧
    Enlace.buffer (Enlace.self w') = Some [].
Proof.
  apply (delimiter_padding guarda (enlace_novo guarda []) 0 [([x41], 0); ([x42; xc0], 2)]).
  - reflexivity.
  - intros d e x. discriminate.
  - reflexivity.
  - repeat constructor; discriminate.
Defined.

(** A link on which [registrar_recebedor] was never called has no
    [callback] attribute: every non-empty candidate ends in an
    AttributeError that is caught and printed, nothing is called, and
    the bytes are consumed like any others. *)
Theorem callback_attribute_missing {E} (w : Enlace.world E) (dados : bytes) :
  Enlace.callback (Enlace.self w) = None →
  ∃ w' qs,
    Enlace.__raw_recv dados w = Enlace.Normal w' ∧
    Enlace.get_buffer w ++ dados =
      concat ((λ q, q ++ [xc0]) <$> qs) ++ Enlace.get_buffer w' ∧
    Forall (λ q, xc0 ∉ q) qs ∧
    (xc0 ∉ Enlace.get_buffer w') ∧
    Enlace.env w' = Enlace.env w ∧
    Enlace.trace w' =
      Enlace.trace w ++
      replicate (length (filter (λ q, q ≠ []) qs)) (PrintExc (AttributeError "callback")).
Proof.
  intros Hcb.
  destruct (split_candidates (S (length (Enlace.get_buffer w ++ dados)))
              (Enlace.get_buffer w ++ dados)) as (qs & resto & Hs & Hqs & Hr); [lia|].
  rewrite raw_recv_unfold, Hs.
  rewrite (loop_candidates_const [PrintExc (AttributeError "callback")] qs _ resto);
    [| |assumption|assumption|reflexivity|lia].
  - eexists _, qs. split; [reflexivity|]. simpl.
    rewrite concat_replicate_singleton. auto.
  - intros d w0 Hw0. unfold Enlace.dispatch, Enlace.try_body.
    rewrite Hw0. cbn [Enlace.set_buffer Enlace.self Enlace.callback]. rewrite Hcb.
    reflexivity.
Qed.

Lemma callback_attribute_missing_witness :
  ∃ w' qs,
    Enlace.__raw_recv [xc0; x41; xc0; xc0; x42; xc0; x43]
      (Enlace.World (Enlace.__init__ 0) tt []) = Enlace.Normal w' ∧
    [] ++ [xc0; x41; xc0; xc0; x42; xc0; x43] =
      concat ((λ q, q ++ [xc0]) <$> qs) ++ Enlace.get_buffer w' ∧
    Forall (λ q, xc0 ∉ q) qs ∧
    (xc0 ∉ Enlace.get_buffer w') ∧
    Enlace.env w' = tt ∧
    Enlace.trace w' =
      [] ++ replicate (length (filter (λ q, q ≠ []) qs))
              (PrintExc (AttributeError "callback")).
Proof.
  apply (callback_attribute_missing (Enlace.World (Enlace.__init__ 0) tt [])
           [xc0; x41; xc0; xc0; x42; xc0; x43]).
  reflexivity.
Defined.

(** With [None] registered as the callback, complete candidates are
    consumed and dropped: no call, no event, no change behind the
    callback; only the unterminated rest stays in the buffer. *)
Theorem callback_None_drops {E} (w : Enlace.world E) (dados : bytes) :
  Enlace.callback (Enlace.self w) = Some None →
  ∃ w' pre,
    Enlace.__raw_recv dados w = Enlace.Normal w' ∧
    Enlace.get_buffer w ++ dados = pre ++ Enlace.get_buffer w' ∧
    (pre = [] ∨ ∃ p, pre = p ++ [xc0]) ∧
    (xc0 ∉ Enlace.get_buffer w') ∧
    Enlace.env w' = Enlace.env w ∧
    Enlace.trace w' = Enlace.trace w.
Proof.
  intros Hcb.
  destruct (split_candidates (S (length (Enlace.get_buffer w ++ dados)))
              (Enlace.get_buffer w ++ dados)) as (qs & resto & Hs & Hqs & Hr); [lia|].
  rewrite raw_recv_unfold, Hs.
  rewrite (loop_candidates_const [] qs _ resto);
    [| |assumption|assumption|reflexivity|lia].
  - eexists _, (concat ((λ q, q ++ [xc0]) <$> qs)). split; [reflexivity|]. simpl.
    rewrite concat_replicate_nil, app_nil_r. repeat split; try assumption.
    clear -qs. induction qs as [|q qs IH] using rev_ind; [left; reflexivity|].
    right. rewrite fmap_app, concat_app. simpl. rewrite app_nil_r, app_assoc. eauto.
  - intros d w0 Hw0. unfold Enlace.dispatch, Enlace.try_body.
    rewrite Hw0. cbn [Enlace.set_buffer Enlace.self Enlace.callback]. rewrite Hcb.
    rewrite app_nil_r. destruct w0; reflexivity.
Qed.

Lemma callback_None_drops_witness :
  ∃ w' pre,
    Enlace.__raw_recv [xc0; x41; xc0; x42]
      (Enlace.World (Enlace.registrar_recebedor None (Enlace.__init__ 0)) tt []) =
      Enlace.Normal w' ∧
    [] ++ [xc0; x41; xc0; x42] = pre ++ Enlace.get_buffer w' ∧
    (pre = [] ∨ ∃ p, pre = p ++ [xc0]) ∧
    (xc0 ∉ Enlace.get_buffer w') ∧
    Enlace.env w' = tt ∧
    Enlace.trace w' = [].
Proof.
  apply (callback_None_drops
           (Enlace.World (Enlace.registrar_recebedor None (Enlace.__init__ 0)) tt [])
           [xc0; x41; xc0; x42]).
  reflexivity.
Defined.

(** [registrar_recebedor] leaves the buffer alone: bytes of a frame
    that arrived before it are part of the datagram completed after it,
    and that datagram goes to the callback registered last. *)
Theorem registrar_keeps_buffer {E} (f : Enlace.callable E) (w : Enlace.world E)
    (q : bytes) :
  xc0 ∉ Enlace.get_buffer w →
  xc0 ∉ q →
  Enlace.get_buffer w ++ q ≠ [] →
  let w2 := Enlace.World (Enlace.registrar_recebedor (Some f) (Enlace.self w))
              (Enlace.env w) (Enlace.trace w) in
  let r := Enlace.world_of (Enlace.__raw_recv (q ++ [xc0]) w2) in
  Enlace.chamadas (Enlace.trace r) =
    Enlace.chamadas (Enlace.trace w) ++ [Enlace.desescapar (Enlace.get_buffer w ++ q)] ∧
  Enlace.env r = (f (Enlace.desescapar (Enlace.get_buffer w ++ q)) (Enlace.env w)).2 ∧
  Enlace.buffer (Enlace.self r) = Some [].
Proof.
  intros Hb Hq Hne. cbv zeta.
  rewrite (raw_recv_one 0 _ _ (Enlace.get_buffer w ++ q));
    [|cbn [replicate app]; rewrite app_assoc; reflexivity
     |rewrite elem_of_app; tauto|assumption].
  rewrite (dispatch_registered f) by reflexivity.
  cbn [Enlace.set_buffer Enlace.self Enlace.env Enlace.trace Enlace.registrar_recebedor].
  destruct (f _ (Enlace.env w)) as [[|x] e']; cbn [snd].
  - cbn [Enlace.world_of Enlace.trace Enlace.env Enlace.self Enlace.buffer].
    rewrite chamadas_app. auto.
  - destruct (isinstance_Exception x);
      cbn [Enlace.world_of Enlace.trace Enlace.env Enlace.self Enlace.buffer];
      rewrite chamadas_app; auto.
Qed.

Lemma registrar_keeps_buffer_witness :
  let w2 := Enlace.World
              (Enlace.registrar_recebedor (Some falha)
                 (Enlace.mk 0 (Some (Some guarda)) (Some [x41; xdb])))
              [] [] in
  let r := Enlace.world_of (Enlace.__raw_recv ([xdc; x42] ++ [xc0]) w2) in
  Enlace.chamadas (Enlace.trace r) = [] ++ [Enlace.desescapar ([x41; xdb] ++ [xdc; x42])] ∧
  Enlace.env r = (falha (Enlace.desescapar ([x41; xdb] ++ [xdc; x42])) []).2 ∧
  Enlace.buffer (Enlace.self r) = Some [].
Proof.
  apply (registrar_keeps_buffer falha
           (Enlace.World (Enlace.mk 0 (Some (Some guarda)) (Some [x41; xdb])) [] [])
           [xdc; x42]).
  - intros H. repeat (apply elem_of_cons in H as [H|H]; [discriminate|]). inversion H.
  - intros H. repeat (apply elem_of_cons in H as [H|H]; [discriminate|]). inversion H.
  - discriminate.
Defined.

(** Chunks without a delimiter only pile up: no call, no event, and the
    buffer is the old buffer followed by all of them, whatever their
    number and size. *)
Theorem no_delimiter_accumulates {E} (pedacos : list bytes) : ∀ w : Enlace.world E,
  xc0 ∉ Enlace.get_buffer w →
  Forall (λ p, xc0 ∉ p) pedacos →
  ∃ w', Enlace.entregar pedacos w = Enlace.Normal w' ∧
        Enlace.get_buffer w' = Enlace.get_buffer w ++ concat pedacos ∧
        Enlace.trace w' = Enlace.trace w ∧
        Enlace.env w' = Enlace.env w.
Proof.
  induction pedacos as [|p ps IH]; intros w Hb Hps.
  - exists w. simpl. rewrite app_nil_r. auto.
  - apply Forall_cons in Hps as [Hp Hps].
    cbn [Enlace.entregar concat]. rewrite raw_recv_unfold.
    rewrite loop_done by (rewrite get_set_buffer, elem_of_app; tauto).
    destruct (IH (Enlace.set_buffer (Enlace.get_buffer w ++ p) w))
      as (w' & -> & Hb' & Ht & He); [rewrite get_set_buffer, elem_of_app; tauto|assumption|].
    exists w'. rewrite Hb', get_set_buffer, <- app_assoc. auto.
Qed.

Lemma no_delimiter_accumulates_witness :
  ∃ w', Enlace.entregar [[x41]; []; [xdb; x42]] (enlace_novo sai []) = Enlace.Normal w' ∧
        Enlace.get_buffer w' = [] ++ concat [[x41]; []; [xdb; x42]] ∧
        Enlace.trace w' = [] ∧
        Enlace.env w' = [].
Proof.
  apply (no_delimiter_accumulates [[x41]; []; [xdb; x42]] (enlace_novo sai [])).
  - apply not_elem_of_nil.
  - repeat constructor;
      intros H; repeat (apply elem_of_cons in H as [H|H]; [discriminate|]); inversion H.
Defined.

(** Whatever the link's state, its callback and the bytes, a call of
    [__raw_recv] only adds events to those already there, and no
    datagram it hands to the callback is empty. *)
Theorem never_empty_datagram {E} (w : Enlace.world E) (dados : bytes) :
  ∃ novos,
    Enlace.trace (Enlace.world_of (Enlace.__raw_recv dados w)) = Enlace.trace w ++ novos ∧
    Forall (λ d, d ≠ []) (Enlace.chamadas novos).
Proof.
  rewrite raw_recv_unfold.
  apply (loop_only_appends _ (Enlace.set_buffer (Enlace.get_buffer w ++ dados) w)).
Qed.

(** When an exception leaves [__raw_recv], it is one that
    [except Exception] does not catch, raised by the callback on the
    datagram of a complete candidate [q]. That candidate and all before
    it are gone from the buffer, so a later call does not hand them
    over again; every byte after the candidate's delimiter is still in
    the buffer. *)
Theorem escaped_exception_state {E} (w w' : Enlace.world E) (dados : bytes) (e : exn) :
  Enlace.__raw_recv dados w = Enlace.Propagates e w' →
  ∃ pre q tr,
    Enlace.get_buffer w ++ dados = pre ++ q ++ xc0 :: Enlace.get_buffer w' ∧
    (pre = [] ∨ ∃ p, pre = p ++ [xc0]) ∧
    (xc0 ∉ q) ∧ q ≠ [] ∧
    Enlace.trace w' = tr ++ [CallbackCall (Enlace.desescapar q)] ∧
    isinstance_Exception e = false ∧
    Enlace.buffer (Enlace.self w') = Some (Enlace.get_buffer w').
Proof.
  rewrite raw_recv_unfold. intros Hl.
  apply loop_propagates in Hl; [|rewrite get_set_buffer; lia].
  rewrite get_set_buffer in Hl. exact Hl.
Qed.

Lemma escaped_exception_state_witness :
  ∃ pre q tr,
    [] ++ [xc0; x41; xc0; xc0; x42; xc0] = pre ++ q ++ xc0 :: [xc0; x42; xc0] ∧
    (pre = [] ∨ ∃ p, pre = p ++ [xc0]) ∧
    (xc0 ∉ q) ∧ q ≠ [] ∧
    [CallbackCall [x41]] = tr ++ [CallbackCall (Enlace.desescapar q)] ∧
    isinstance_Exception (BaseExceptionOnly "SystemExit") = false ∧
    Some [xc0; x42; xc0] = Some [xc0; x42; xc0].
Proof.
  apply (escaped_exception_state (enlace_novo sai [])
           (Enlace.World (Enlace.mk 0 (Some (Some sai)) (Some [xc0; x42; xc0]))
              [[x41]] [CallbackCall [x41]])
           [xc0; x41; xc0; xc0; x42; xc0]).
  reflexivity.
Defined.

(** After a call that returned, a call with no bytes changes nothing. *)
Theorem empty_chunk_noop {E} (w w' : Enlace.world E) (dados : bytes) :
  Enlace.__raw_recv dados w = Enlace.Normal w' →
  Enlace.__raw_recv [] w' = Enlace.Normal w'.
Proof.
  intros Hr. apply raw_recv_leaves_no_END in Hr as (Hsome & Hno).
  rewrite raw_recv_unfold, app_nil_r.
  rewrite loop_done by (rewrite get_set_buffer; exact Hno).
  rewrite set_buffer_id by exact Hsome. reflexivity.
Qed.

Lemma empty_chunk_noop_witness :
  Enlace.__raw_recv []
    (Enlace.World (Enlace.mk 0 (Some (Some guarda)) (Some [x42]))
       [[x41]] [CallbackCall [x41]]) =
  Enlace.Normal
    (Enlace.World (Enlace.mk 0 (Some (Some guarda)) (Some [x42]))
       [[x41]] [CallbackCall [x41]]).
Proof.
  apply (empty_chunk_noop (enlace_novo guarda []) _ [xc0; x41; xc0; x42]).
  reflexivity.
Defined.

(** Bytes left in the buffer when a frame arrives are closed by the
    frame's leading delimiter and handed to the callback as a datagram
    of their own, before the frame's datagram. *)
Theorem stale_bytes_delivered {E} (f : Enlace.callable E) (w : Enlace.world E)
    (p d : bytes) :
  Enlace.callback (Enlace.self w) = Some (Some f) →
  so_Exception f →
  Enlace.buffer (Enlace.self w) = Some p →
  xc0 ∉ p → p ≠ [] → d ≠ [] →
  ∃ w', Enlace.__raw_recv (Enlace.quadro_de d) w = Enlace.Normal w' ∧
        Enlace.chamadas (Enlace.trace w') =
          Enlace.chamadas (Enlace.trace w) ++ [Enlace.desescapar p; d] ∧
        Enlace.buffer (Enlace.self w') = Some [].
Proof.
  intros Hcb Hf Hb Hp Hpne Hd. rewrite raw_recv_unfold.
  assert (Enlace.get_buffer w = p) as -> by (unfold Enlace.get_buffer; rewrite Hb; reflexivity).
  assert (p ++ Enlace.quadro_de d =
          concat ((λ q, q ++ [xc0]) <$> [p; Enlace.escapar d]) ++ []) as Hshape.
  { unfold Enlace.quadro_de, END. simpl. rewrite !app_nil_r, <- !app_assoc. reflexivity. }
  rewrite Hshape.
  rewrite (loop_candidates f Hf [p; Enlace.escapar d] _ []);
    [|exact Hcb|repeat constructor; [assumption|apply escapar_no_END]
     |apply not_elem_of_nil|reflexivity|lia].
  eexists. split; [reflexivity|]. cbn [Enlace.trace Enlace.set_buffer Enlace.self
    Enlace.buffer].
  rewrite filter_cons_True by assumption.
  rewrite filter_cons_True by (intros H; apply (proj1 (escapar_empty _)) in H; congruence).
  rewrite filter_nil. cbn [fmap list_fmap]. rewrite desescapar_escapar.
  rewrite chamadas_app, chamadas_eventos. split; reflexivity.
Qed.

Lemma stale_bytes_delivered_witness :
  ∃ w', Enlace.__raw_recv (Enlace.quadro_de [x42])
          (Enlace.World (Enlace.mk 0 (Some (Some guarda)) (Some [x41])) [] []) =
          Enlace.Normal w' ∧
        Enlace.chamadas (Enlace.trace w') = [] ++ [Enlace.desescapar [x41]; [x42]] ∧
        Enlace.buffer (Enlace.self w') = Some [].
Proof.
  apply (stale_bytes_delivered guarda
           (Enlace.World (Enlace.mk 0 (Some (Some guarda)) (Some [x41])) [] [])
           [x41] [x42]).
  - reflexivity.
  - intros d e x. discriminate.
  - reflexivity.
  - intros H. repeat (apply elem_of_cons in H as [H|H]; [discriminate|]). inversion H.
  - discriminate.
  - discriminate.
Defined.

(** ** More on CamadaEnlace *)

Section CamadaMore.
Context {U : Type}.
Implicit Types (c : CamadaEnlace.t U).

(** A pass changes neither the line nor the callback of the link. *)
Lemma loop_keeps_link {E} n : ∀ w : Enlace.world E,
  Enlace.linha_serial (Enlace.self (Enlace.world_of (Enlace.loop n w))) =
    Enlace.linha_serial (Enlace.self w) ∧
  Enlace.callback (Enlace.self (Enlace.world_of (Enlace.loop n w))) =
    Enlace.callback (Enlace.self w).
Proof.
  induction n as [|n IH]; intros w; [auto|].
  destruct (split_first (Enlace.get_buffer w) xc0) as [Hno|(q & r & Hb & Hq)].
  { rewrite loop_done by assumption. auto. }
  rewrite (loop_step _ w q r) by assumption.
  destruct q as [|b q]; [apply (IH (Enlace.set_buffer r w))|].
  pose proof (dispatch_self (Enlace.desescapar (b :: q)) (Enlace.set_buffer r w)) as Hs.
  destruct (Enlace.dispatch _ _) as [w2|e w2]; cbn [Enlace.world_of] in *.
  - destruct (IH w2) as [-> ->]. rewrite Hs. auto.
  - rewrite Hs. auto.
Qed.

Lemma raw_recv_keeps_link {E} (w : Enlace.world E) dados :
  Enlace.linha_serial (Enlace.self (Enlace.world_of (Enlace.__raw_recv dados w))) =
    Enlace.linha_serial (Enlace.self w) ∧
  Enlace.callback (Enlace.self (Enlace.world_of (Enlace.__raw_recv dados w))) =
    Enlace.callback (Enlace.self w).
Proof.
  rewrite raw_recv_unfold.
  apply (loop_keeps_link _ (Enlace.set_buffer (Enlace.get_buffer w ++ dados) w)).
Qed.

Lemma recebe_enlaces c ip dados :
  CamadaEnlace.enlaces (camada_de (CamadaEnlace.linha_recebe ip dados c)) =
  match CamadaEnlace.enlaces c !! ip with
  | Some enlace =>
      <[ip := Enlace.self (Enlace.world_of (Enlace.__raw_recv dados
                 (Enlace.World enlace (CamadaEnlace.cima c) (CamadaEnlace.trace c))))]>
        (CamadaEnlace.enlaces c)
  | None => CamadaEnlace.enlaces c
  end.
Proof.
  unfold CamadaEnlace.linha_recebe.
  destruct (CamadaEnlace.enlaces c !! ip) as [enlace|]; [|reflexivity].
  destruct (Enlace.__raw_recv _ _); reflexivity.
Qed.

Lemma enviar_enlaces c d ip :
  CamadaEnlace.enlaces (camada_de (CamadaEnlace.enviar d ip c)) = CamadaEnlace.enlaces c.
Proof.
  unfold CamadaEnlace.enviar.
  destruct (CamadaEnlace.enlaces c !! ip) as [enlace|] eqn:Hl; [|reflexivity].
  simpl. apply insert_id. exact Hl.
Qed.

Lemma passo_keeps_links c c' :
  passo c c' →
  ∀ ip, Enlace.linha_serial <$> CamadaEnlace.enlaces c' !! ip =
          Enlace.linha_serial <$> CamadaEnlace.enlaces c !! ip ∧
        Enlace.callback <$> CamadaEnlace.enlaces c' !! ip =
          Enlace.callback <$> CamadaEnlace.enlaces c !! ip.
Proof.
  intros [c0 cb|c0 d hop|c0 ip0 dados] ip.
  - auto.
  - rewrite enviar_enlaces. auto.
  - rewrite recebe_enlaces.
    destruct (CamadaEnlace.enlaces c0 !! ip0) as [enlace|] eqn:Hl; [|auto].
    destruct (decide (ip0 = ip)) as [->|Hne].
    + rewrite lookup_insert_eq, Hl. simpl.
      destruct (raw_recv_keeps_link
                  (Enlace.World enlace (CamadaEnlace.cima c0) (CamadaEnlace.trace c0)) dados)
        as [-> ->]. auto.
    + rewrite lookup_insert_ne by assumption. auto.
Qed.
End CamadaMore.

Lemma registry_links {U} (linhas : gmap string nat) (u : U) (c : CamadaEnlace.t U) :
  rtc passo (CamadaEnlace.__init__ linhas u) c →
  ∀ ip, Enlace.linha_serial <$> CamadaEnlace.enlaces c !! ip = linhas !! ip ∧
        Enlace.callback <$> CamadaEnlace.enlaces c !! ip =
          (λ _, Some (Some CamadaEnlace._callback)) <$> linhas !! ip.
Proof.
  revert c.
  apply (rtc_ind_r
    (λ c, ∀ ip, Enlace.linha_serial <$> CamadaEnlace.enlaces c !! ip = linhas !! ip ∧
                Enlace.callback <$> CamadaEnlace.enlaces c !! ip =
                  (λ _, Some (Some CamadaEnlace._callback)) <$> linhas !! ip)).
  - intros ip. unfold CamadaEnlace.__init__. cbn [CamadaEnlace.enlaces].
    rewrite lookup_fmap. destruct (linhas !! ip); auto.
  - intros c0 c Hr Hp IH ip.
    destruct (passo_keeps_links c0 c Hp ip) as [-> ->]. apply IH.
Qed.

(** The registry is fixed at construction. In every state reached from
    [__init__] by registrations, sends and receptions, the addresses
    with a link are exactly the keys of [linhas_seriais], each link
    still holds the line given for its address, and its callback is
    still the instance's [_callback]. *)
Theorem registry_fixed {U} (linhas : gmap string nat) (u : U) (c : CamadaEnlace.t U) :
  rtc passo (CamadaEnlace.__init__ linhas u) c →
  dom (CamadaEnlace.enlaces c) = dom linhas ∧
  ∀ ip enlace, CamadaEnlace.enlaces c !! ip = Some enlace →
    linhas !! ip = Some (Enlace.linha_serial enlace) ∧
    Enlace.callback enlace = Some (Some CamadaEnlace._callback).
Proof.
  intros Hr. pose proof (registry_links linhas u c Hr) as H. split.
  - apply set_eq. intros ip. rewrite !elem_of_dom.
    destruct (H ip) as [Hl _].
    destruct (CamadaEnlace.enlaces c !! ip), (linhas !! ip); simpl in Hl;
      try discriminate; split; intros [? ?]; eauto; discriminate.
  - intros ip enlace Hip. destruct (H ip) as [Hl Hc]. rewrite Hip in Hl, Hc.
    simpl in Hl, Hc. rewrite <- Hl in *. simpl in Hc. split; congruence.
Qed.

Lemma registry_fixed_witness :
  dom (CamadaEnlace.enlaces
         (camada_de (CamadaEnlace.linha_recebe "10.0.0.1" [xc0; x41; xc0; x42]
            (CamadaEnlace.registrar_recebedor (Some sai) camada_exemplo)))) =
    dom (<["10.0.0.1" := 1]> (<["10.0.0.2" := 2]> ∅) : gmap string nat) ∧
  ∀ ip enlace,
    CamadaEnlace.enlaces
      (camada_de (CamadaEnlace.linha_recebe "10.0.0.1" [xc0; x41; xc0; x42]
         (CamadaEnlace.registrar_recebedor (Some sai) camada_exemplo))) !! ip =
      Some enlace →
    (<["10.0.0.1" := 1]> (<["10.0.0.2" := 2]> ∅) : gmap string nat) !! ip =
      Some (Enlace.linha_serial enlace) ∧
    Enlace.callback enlace = Some (Some CamadaEnlace._callback).
Proof.
  apply (registry_fixed (<["10.0.0.1" := 1]> (<["10.0.0.2" := 2]> ∅)) []).
  eapply rtc_l; [apply (passo_registrar _ (Some sai))|].
  eapply rtc_l; [apply (passo_recebe _ "10.0.0.1" [xc0; x41; xc0; x42])|].
  apply rtc_refl.
Defined.

(** In every such state, [enviar] to an address given at construction
    hands the frame to the line given for it, and to that line only;
    to any other address it raises KeyError and sends nothing. *)
Theorem routing_follows_construction {U} (linhas : gmap string nat) (u : U)
    (c : CamadaEnlace.t U) (d : bytes) (ip : string) :
  rtc passo (CamadaEnlace.__init__ linhas u) c →
  match linhas !! ip with
  | Some linha =>
      ∃ c', CamadaEnlace.enviar d ip c = CamadaEnlace.Normal c' ∧
            CamadaEnlace.trace c' =
              CamadaEnlace.trace c ++ [LinhaEnviar linha (Enlace.quadro_de d)]
  | None =>
      CamadaEnlace.enviar d ip c = CamadaEnlace.Propagates (KeyError ip) c
  end.
Proof.
  intros Hr. destruct (registry_links linhas u c Hr ip) as [Hl _].
  unfold CamadaEnlace.enviar.
  destruct (CamadaEnlace.enlaces c !! ip) as [enlace|]; simpl in Hl; rewrite <- Hl.
  - eexists. split; reflexivity.
  - reflexivity.
Qed.

Lemma routing_follows_construction_witness :
  ∃ c', CamadaEnlace.enviar [x41] "10.0.0.2"
          (camada_de (CamadaEnlace.linha_recebe "10.0.0.1" [xc0; x41; xc0; x42]
             camada_exemplo)) = CamadaEnlace.Normal c' ∧
        CamadaEnlace.trace c' =
          CamadaEnlace.trace
            (camada_de (CamadaEnlace.linha_recebe "10.0.0.1" [xc0; x41; xc0; x42]
               camada_exemplo)) ++ [LinhaEnviar 2 (Enlace.quadro_de [x41])].
Proof.
  assert (rtc passo camada_exemplo
            (camada_de (CamadaEnlace.linha_recebe "10.0.0.1" [xc0; x41; xc0; x42]
               camada_exemplo))) as Hr.
  { eapply rtc_l; [apply (passo_recebe _ "10.0.0.1" [xc0; x41; xc0; x42])|].
    apply rtc_refl. }
  exact (routing_follows_construction (<["10.0.0.1" := 1]> (<["10.0.0.2" := 2]> ∅)) []
           _ [x41] "10.0.0.2" Hr).
Defined.

(** Upward delivery. Once a callback is registered on the
    [CamadaEnlace], whatever was registered before, a frame arriving on
    any of its links (with nothing pending in that link's buffer) gives
    that callback the datagram, once and unchanged. If the callback
    raises an instance of [Exception], the link prints the traceback
    and the call still returns; any other exception leaves the call. *)
Theorem camada_entrega {U} (c : CamadaEnlace.t U) (ip : string)
    (enlace : Enlace.t (CamadaEnlace.acima U)) (g : Enlace.callable U) (d : bytes) :
  CamadaEnlace.enlaces c !! ip = Some enlace →
  Enlace.callback enlace = Some (Some CamadaEnlace._callback) →
  Enlace.buffer enlace = None ∨ Enlace.buffer enlace = Some [] →
  d ≠ [] →
  let u := CamadaEnlace.camada_acima (CamadaEnlace.cima c) in
  let r := CamadaEnlace.linha_recebe ip (Enlace.quadro_de d)
             (CamadaEnlace.registrar_recebedor (Some g) c) in
  CamadaEnlace.cima (camada_de r) =
    CamadaEnlace.Acima (Some g) (g d u).2
      (CamadaEnlace.entregues (CamadaEnlace.cima c) ++ [d]) ∧
  match (g d u).1 with
  | Returns =>
      ∃ c', r = CamadaEnlace.Normal c' ∧
            Enlace.relatados (CamadaEnlace.trace c') =
              Enlace.relatados (CamadaEnlace.trace c)
  | Raises x =>
      if isinstance_Exception x
      then ∃ c', r = CamadaEnlace.Normal c' ∧
                 Enlace.relatados (CamadaEnlace.trace c') =
                   Enlace.relatados (CamadaEnlace.trace c) ++ [x]
      else ∃ c', r = CamadaEnlace.Propagates x c'
  end.
Proof.
  intros Hl Hcb Hbuf Hd. cbv zeta.
  unfold CamadaEnlace.linha_recebe, CamadaEnlace.registrar_recebedor.
  cbn [CamadaEnlace.enlaces CamadaEnlace.cima CamadaEnlace.trace]. rewrite Hl.
  rewrite (raw_recv_one 1 _ _ (Enlace.escapar d)); cycle 1.
  { unfold Enlace.get_buffer, Enlace.quadro_de, END. cbn [Enlace.self].
    destruct Hbuf as [-> | ->]; reflexivity. }
  { apply escapar_no_END. }
  { intros H. apply (proj1 (escapar_empty _)) in H. congruence. }
  rewrite desescapar_escapar.
  rewrite (dispatch_registered CamadaEnlace._callback) by exact Hcb.
  cbn [Enlace.set_buffer Enlace.self Enlace.env Enlace.trace].
  unfold CamadaEnlace._callback.
  cbn [CamadaEnlace.callback CamadaEnlace.camada_acima CamadaEnlace.entregues].
  destruct (g d (CamadaEnlace.camada_acima (CamadaEnlace.cima c))) as [[|x] u'];
    cbn [fst snd].
  - split; [reflexivity|]. eexists. split; [reflexivity|].
    cbn [CamadaEnlace.trace Enlace.trace]. unfold Enlace.relatados.
    rewrite omap_app. simpl. apply app_nil_r.
  - destruct (isinstance_Exception x).
    + split; [reflexivity|]. eexists. split; [reflexivity|].
      cbn [CamadaEnlace.trace Enlace.trace]. unfold Enlace.relatados.
      rewrite omap_app. reflexivity.
    + split; [reflexivity|]. eexists. reflexivity.
Qed.

Lemma camada_entrega_witness :
  let u := CamadaEnlace.camada_acima (CamadaEnlace.cima camada_exemplo) in
  let r := CamadaEnlace.linha_recebe "10.0.0.1" (Enlace.quadro_de [x41; xc0])
             (CamadaEnlace.registrar_recebedor (Some falha) camada_exemplo) in
  CamadaEnlace.cima (camada_de r) =
    CamadaEnlace.Acima (Some falha) (falha [x41; xc0] u).2
      (CamadaEnlace.entregues (CamadaEnlace.cima camada_exemplo) ++ [[x41; xc0]]) ∧
  match (falha [x41; xc0] u).1 with
  | Returns =>
      ∃ c', r = CamadaEnlace.Normal c' ∧
            Enlace.relatados (CamadaEnlace.trace c') =
              Enlace.relatados (CamadaEnlace.trace camada_exemplo)
  | Raises x =>
      if isinstance_Exception x
      then ∃ c', r = CamadaEnlace.Normal c' ∧
                 Enlace.relatados (CamadaEnlace.trace c') =
                   Enlace.relatados (CamadaEnlace.trace camada_exemplo) ++ [x]
      else ∃ c', r = CamadaEnlace.Propagates x c'
  end.
Proof.
  apply (camada_entrega camada_exemplo "10.0.0.1"
           (Enlace.mk 1 (Some (Some CamadaEnlace._callback)) None) falha [x41; xc0]).
  - vm_compute. reflexivity.
  - reflexivity.
  - left. reflexivity.
  - discriminate.
Defined.
